(** * uriuniq: random URI-safe strings by rejection sampling

    A shallow embedding of [uriuniq.go] (package [uriuniq]) and the
    properties of its charset resolver ([getCharset]), its sampler
    ([randString]) and its entry point ([Generate]).

    Conventions of the embedding:
    - a Go [string] and a Go [[]byte] are both [list byte];
    - a Go [int] is a [Z]; the one place where the program can leave the
      64-bit range (the counter [badReads++]) has its wrap-around written
      out with [wrap_int];
    - [crypto/rand] is an explicit collaborator: a [Source] answers the
      k-th call of [rand.Read]; the calls made so far and what was printed
      on standard output are threaded through every function in a [world];
    - the outer loop of [randString] has no static bound in the source, so
      it is run with fuel: [None] means that the fuel ran out, and results
      that say "the call returns" exhibit the fuel. *)

From Stdlib Require Import ZArith List Bool Lia String FinFun.
From Stdlib Require Import Strings.Byte.
Import ListNotations.

Local Open Scope Z_scope.

(** ** Data model *)

(** [type Charset string] *)
Definition Charset := list byte.

Definition bytes_of (s : string) : list byte := list_byte_of_string s.

Definition Alphanumeric : Charset :=
  bytes_of "abcdefghijklmnopqrstuvwxyzABCDEFGHIJKLMNOPQRSTUVWXYZ0123456789".
Definition Lowercase : Charset := bytes_of "abcdefghijklmnopqrstuvwxyz".
Definition Uppercase : Charset := bytes_of "ABCDEFGHIJKLMNOPQRSTUVWXYZ".
Definition Numeric : Charset := bytes_of "0123456789".

Record Options := mkOptions {
  Length : Z;
  ExcludeNumeric : bool;
  ExcludeLowercase : bool;
  ExcludeUppercase : bool;
  CustomCharset : Charset;
  MaxBadReads : Z
}.

Definition DefaultLength : Z := 16.
Definition DefaultMaxBadReads : Z := 150.
Definition MaxBuffLength : nat := 2048.

Definition NewOpts : Options :=
  mkOptions DefaultLength false false false [] DefaultMaxBadReads.

Definition with_Length (l : Z) (o : Options) : Options :=
  mkOptions l (ExcludeNumeric o) (ExcludeLowercase o) (ExcludeUppercase o)
            (CustomCharset o) (MaxBadReads o).

Definition with_MaxBadReads (m : Z) (o : Options) : Options :=
  mkOptions (Length o) (ExcludeNumeric o) (ExcludeLowercase o)
            (ExcludeUppercase o) (CustomCharset o) m.

(** The Go [int] of the supported 64-bit targets. *)
Definition max_int : Z := 2 ^ 63 - 1.
Definition min_int : Z := - 2 ^ 63.
Definition wrap_int (x : Z) : Z := (x + 2 ^ 63) mod 2 ^ 64 - 2 ^ 63.

(** [len] of a string or slice, as a Go [int]. *)
Definition len {A : Type} (l : list A) : Z := Z.of_nat (List.length l).

(** The numeric value of a byte, [int(b)]. *)
Definition byte_val (b : byte) : Z := Z.of_N (Byte.to_N b).

(** The error values the package can hand back.  The first three are the
    [errors.New] values of the source; [ErrSource] is whatever [rand.Read]
    returned. *)
Inductive error : Type :=
| ErrNoValidChars                 (* "uriuniq: no valid chars" *)
| ErrCharsetSize                  (* "uriuniq: charset size 2-256" *)
| ErrTooManyBadReads              (* "uriuniq: too many bad reads" *)
| ErrSource (msg : string).

(** A Go result pair [(string, error)]; [None] is [nil]. *)
Definition result : Type := list byte * option error.

(** What [fmt.Printf] wrote. *)
Inductive notice : Type :=
| InvalidLength (given dflt : Z)
| NotURISafe (cs : Charset).

(** One answer of [rand.Read]: the bytes written at the front of the
    buffer, or an error. *)
Inductive read_result : Type :=
| ReadOk (data : list byte)
| ReadErr (e : string).

(** The entropy collaborator: its answer to the k-th call. *)
Definition Source := nat -> read_result.

(** The observable effects of a call: the buffer sizes handed to
    [rand.Read], most recent first, and the lines printed, most recent
    first. *)
Record world := mkWorld {
  requests : list nat;
  stdout : list notice
}.

Definition world0 : world := mkWorld [] [].

Definition print (n : notice) (w : world) : world :=
  mkWorld (requests w) (n :: stdout w).

(** [rand.Read(buffer)] on a buffer of [size] bytes: the source cannot
    write past the end of the buffer. *)
Definition rand_Read (src : Source) (size : nat) (w : world)
  : read_result * world :=
  let w' := mkWorld (size :: requests w) (stdout w) in
  match src (List.length (requests w)) with
  | ReadOk data => (ReadOk (firstn size data), w')
  | ReadErr e => (ReadErr e, w')
  end.

(** ** The charset resolver *)

Definition safeChars : list byte :=
  bytes_of
    "ABCDEFGHIJKLMNOPQRSTUVWXYZabcdefghijklmnopqrstuvwxyz0123456789-_.~!*'()".

Definition byte_in (c : byte) (l : list byte) : bool :=
  existsb (Byte.eqb c) l.

(** [isURISafe] ranges over the runes of [s] and looks each one up in a
    set of ASCII runes.  A byte below 0x80 always decodes to the rune of
    the same value and every other rune (a multi-byte one, or the
    replacement rune of an invalid encoding) is at least 0x80, hence
    outside the set: every rune is in the set exactly when every byte
    is. *)
Definition isURISafe (s : list byte) : bool :=
  forallb (fun c => byte_in c safeChars) s.

Definition is_empty {A : Type} (l : list A) : bool :=
  match l with [] => true | _ :: _ => false end.

Definition getCharset (opts : Options) (w : world) : list byte * world :=
  if negb (is_empty (CustomCharset opts)) then
    let w1 := if negb (isURISafe (CustomCharset opts))
              then print (NotURISafe (CustomCharset opts)) w else w in
    (CustomCharset opts, w1)
  else
    let charset := [] in
    let charset := if negb (ExcludeNumeric opts)
                   then charset ++ Numeric else charset in
    let charset := if negb (ExcludeLowercase opts)
                   then charset ++ Lowercase else charset in
    let charset := if negb (ExcludeUppercase opts)
                   then charset ++ Uppercase else charset in
    let charset := if ExcludeNumeric opts && ExcludeLowercase opts
                      && ExcludeUppercase opts
                   then charset ++ Alphanumeric else charset in
    (charset, w).

(** ** The sampler *)

(** [byte(255 - (256 % charsetLen))]; Go's [%] truncates ([Z.rem]) and the
    conversion to [byte] keeps the low eight bits. *)
Definition maxByte_of (charsetLen : Z) : Z :=
  (255 - Z.rem 256 charsetLen) mod 256.

(** [charset[int(byteVal) % charsetLen]] *)
Definition pick (charset : list byte) (charsetLen : Z) (byteVal : byte) : byte :=
  nth (Z.to_nat (Z.rem (byte_val byteVal) charsetLen)) charset x00.

(** [byteVal <= maxByte] *)
Definition accept (maxByte : Z) (byteVal : byte) : bool :=
  byte_val byteVal <=? maxByte.

(** The inner loop,
    [for i := 0; i < readBytes && len(output) < length; i++], over the
    bytes that were read. *)
Fixpoint fill (length : Z) (charset : list byte) (charsetLen maxByte : Z)
         (buf : list byte) (output : list byte) : list byte :=
  match buf with
  | [] => output
  | byteVal :: rest =>
      if len output <? length then
        if accept maxByte byteVal
        then fill length charset charsetLen maxByte rest
                  (output ++ [pick charset charsetLen byteVal])
        else fill length charset charsetLen maxByte rest output
      else output
  end.

(** The outer loop, [for len(output) < length { ... }]. *)
Fixpoint sample_loop (fuel : nat) (src : Source) (length maxBadReads : Z)
         (charset : list byte) (charsetLen maxByte : Z)
         (output : list byte) (badReads : Z) (w : world)
  : option (result * world) :=
  if len output <? length then
    match fuel with
    | O => None
    | S fuel' =>
        match rand_Read src MaxBuffLength w with
        | (ReadErr e, w1) => Some (([], Some (ErrSource e)), w1)
        | (ReadOk buf, w1) =>
            let output' := fill length charset charsetLen maxByte buf output in
            let badReads' := wrap_int (badReads + 1) in
            if badReads' >? maxBadReads
            then Some (([], Some ErrTooManyBadReads), w1)
            else sample_loop fuel' src length maxBadReads
                             charset charsetLen maxByte output' badReads' w1
        end
    end
  else Some ((output, None), w).

Definition randString (fuel : nat) (src : Source) (length maxBadReads : Z)
           (charset : list byte) (w : world) : option (result * world) :=
  if length =? 0 then Some (([], None), w)
  else
    let charsetLen := len charset in
    if (charsetLen <? 2) || (charsetLen >? 256)
    then Some (([], Some ErrCharsetSize), w)
    else
      let maxByte := maxByte_of charsetLen in
      sample_loop fuel src length maxBadReads charset charsetLen maxByte [] 0 w.

(** ** The entry point *)

Definition Generate (fuel : nat) (src : Source) (opts : Options) (w : world)
  : option (result * world) :=
  let '(opts, w) :=
    if Length opts <=? 0
    then (with_Length DefaultLength opts,
          print (InvalidLength (Length opts) DefaultLength) w)
    else (opts, w) in
  let opts :=
    if MaxBadReads opts <=? 0
    then with_MaxBadReads DefaultMaxBadReads opts else opts in
  let '(charset, w) := getCharset opts w in
  if len charset =? 0 then Some (([], Some ErrNoValidChars), w)
  else randString fuel src (Length opts) (MaxBadReads opts) charset w.

(** The length [Generate] aims at. *)
Definition effective_length (opts : Options) : Z :=
  if Length opts <=? 0 then DefaultLength else Length opts.

Definition effective_MaxBadReads (opts : Options) : Z :=
  if MaxBadReads opts <=? 0 then DefaultMaxBadReads else MaxBadReads opts.

(** The number of calls of [rand.Read] between two worlds. *)
Definition reads_between (w w' : world) : Z :=
  len (requests w') - len (requests w).

(** What a caller can tell from a run apart from the printed lines: the
    result pair and the reads that were made. *)
Definition observe (x : option (result * world)) : option (result * list nat) :=
  option_map (fun rw => (fst rw, requests (snd rw))) x.

(** ** The byte values, for counting

    The 256 values a random byte can take, in increasing order, and the
    integers below [m]. *)

Definition all_bytes : list byte :=
  flat_map (fun k => match Byte.of_nat k with Some b => [b] | None => [] end)
           (seq 0 256).

Definition zrange (m : nat) : list Z := map Z.of_nat (seq 0 m).

(** The byte values that are accepted for an alphabet of [n] characters
    and select its character of index [j]. *)
Definition preimage (n j : Z) : list byte :=
  filter (fun b => accept (maxByte_of n) b && (Z.rem (byte_val b) n =? j))
         all_bytes.

(** ** [isURISafe] rune by rune

    The source ranges over the runes of its strings.  Go's [range] over a
    string yields a byte below [runeSelf] as the rune of that value and
    otherwise decodes a UTF-8 sequence ([decoderune]): a well-formed
    sequence of two to four bytes gives its code point, anything else
    gives [runeError] and the loop advances by one byte. *)

Definition runeError : Z := 0xFFFD.
Definition runeSelf : Z := 0x80.
Definition maxRune : Z := 0x10FFFF.
Definition surrogateMin : Z := 0xD800.
Definition surrogateMax : Z := 0xDFFF.
Definition rune1Max : Z := 2 ^ 7 - 1.
Definition rune2Max : Z := 2 ^ 11 - 1.
Definition rune3Max : Z := 2 ^ 16 - 1.

(** A continuation byte, [locb <= b && b <= hicb]. *)
Definition is_cont (b : byte) : bool :=
  (0x80 <=? byte_val b) && (byte_val b <=? 0xBF).

(** The low six bits carried by a continuation byte, [rune(b & maskx)]. *)
Definition cont_bits (b : byte) : Z := Z.land (byte_val b) 0x3F.

(** The rune at the start of a string whose first byte is not ASCII, and
    the number of bytes it takes. *)
Definition decoderune (s : list byte) : Z * nat :=
  match s with
  | [] => (runeError, 1%nat)
  | s0 :: rest =>
      let v0 := byte_val s0 in
      if (0xC0 <=? v0) && (v0 <? 0xE0) then
        match rest with
        | s1 :: _ =>
            if is_cont s1 then
              let r := Z.lor (Z.shiftl (Z.land v0 0x1F) 6) (cont_bits s1) in
              if rune1Max <? r then (r, 2%nat) else (runeError, 1%nat)
            else (runeError, 1%nat)
        | _ => (runeError, 1%nat)
        end
      else if (0xE0 <=? v0) && (v0 <? 0xF0) then
        match rest with
        | s1 :: s2 :: _ =>
            if is_cont s1 && is_cont s2 then
              let r := Z.lor (Z.lor (Z.shiftl (Z.land v0 0x0F) 12)
                                    (Z.shiftl (cont_bits s1) 6))
                             (cont_bits s2) in
              if (rune2Max <? r)
                 && negb ((surrogateMin <=? r) && (r <=? surrogateMax))
              then (r, 3%nat) else (runeError, 1%nat)
            else (runeError, 1%nat)
        | _ => (runeError, 1%nat)
        end
      else if (0xF0 <=? v0) && (v0 <? 0xF8) then
        match rest with
        | s1 :: s2 :: s3 :: _ =>
            if is_cont s1 && is_cont s2 && is_cont s3 then
              let r := Z.lor (Z.lor (Z.lor (Z.shiftl (Z.land v0 0x07) 18)
                                           (Z.shiftl (cont_bits s1) 12))
                                    (Z.shiftl (cont_bits s2) 6))
                             (cont_bits s3) in
              if (rune3Max <? r) && (r <=? maxRune)
              then (r, 4%nat) else (runeError, 1%nat)
            else (runeError, 1%nat)
        | _ => (runeError, 1%nat)
        end
      else (runeError, 1%nat)
  end.

(** [for _, c := range s]: the runes in order.  Every turn consumes at
    least one byte, so [length s] turns are enough. *)
Fixpoint range_runes (fuel : nat) (s : list byte) : list Z :=
  match fuel, s with
  | S fuel', s0 :: rest =>
      if byte_val s0 <? runeSelf
      then byte_val s0 :: range_runes fuel' rest
      else let '(r, width) := decoderune s in
           r :: range_runes fuel' (skipn width s)
  | _, _ => []
  end.

Definition runes (s : list byte) : list Z := range_runes (List.length s) s.

(** A [map[rune]bool]: a key that was never set reads [false]. *)
Definition rune_set : Type := Z -> bool.
Definition empty_set : rune_set := fun _ => false.
Definition set_true (m : rune_set) (c : Z) : rune_set :=
  fun k => if k =? c then true else m k.

Definition safeSet : rune_set := fold_left set_true (runes safeChars) empty_set.

(** [isURISafe] as the source writes it. *)
Definition isURISafe_range (s : list byte) : bool :=
  forallb safeSet (runes s).

(** ** What a run has read and what it makes of it *)

(** The bytes delivered by the k-th call of [rand.Read]. *)
Definition read_bytes (src : Source) (k : nat) : list byte :=
  match src k with
  | ReadOk data => firstn MaxBuffLength data
  | ReadErr _ => []
  end.

(** The bytes delivered by [n] calls from the call number [start] on. *)
Definition bytes_read (src : Source) (start n : nat) : list byte :=
  flat_map (read_bytes src) (seq start n).

(** The string drawn from a sequence of random bytes: the accepted ones,
    in order, each mapped to its character, up to [length]. *)
Definition sampled (length : Z) (charset bytes : list byte) : list byte :=
  firstn (Z.to_nat length)
         (map (pick charset (len charset))
              (filter (accept (maxByte_of (len charset))) bytes)).

(** The byte values that are accepted and give the character [c]. *)
Definition char_preimage (charset : list byte) (c : byte) : list byte :=
  filter (fun b => accept (maxByte_of (len charset)) b
                   && Byte.eqb (pick charset (len charset) b) c)
         all_bytes.

(** No byte occurs twice. *)
Fixpoint distinct (l : list byte) : bool :=
  match l with
  | [] => true
  | c :: rest => negb (byte_in c rest) && distinct rest
  end.

(** How many times a character is listed in an alphabet. *)
Definition occurrences (c : byte) (charset : list byte) : Z :=
  len (filter (Byte.eqb c) charset).

(** The lines [Generate] prints for a configuration, most recent first. *)
Definition printed (opts : Options) : list notice :=
  (if negb (is_empty (CustomCharset opts)) && negb (isURISafe (CustomCharset opts))
   then [NotURISafe (CustomCharset opts)] else [])
  ++ (if Length opts <=? 0
      then [InvalidLength (Length opts) DefaultLength] else []).

(** ** Some entropy sources to run the program on *)

Definition const_source (b : byte) : Source :=
  fun _ => ReadOk (repeat b MaxBuffLength).

(** Every byte is 0xff: rejected by every alphabet whose size does not
    divide 256. *)
Definition stuck_source : Source := const_source xff.

(** The first read is all 0xff, the later ones all 0x00. *)
Definition late_source : Source :=
  fun k => match k with
           | O => ReadOk (repeat xff MaxBuffLength)
           | _ => ReadOk (repeat x00 MaxBuffLength)
           end.

Definition failing_source : Source := fun _ => ReadErr "entropy source failed".

(** ** Some configurations to run the program on *)

(** 2049 characters over a two-letter alphabet, one bad read allowed. *)
Definition opts_2049 : Options :=
  mkOptions 2049 false false false (bytes_of "ab") 1.

(** The custom alphabet of the package's own test, with three characters
    outside the URI-safe set. *)
Definition opts_unsafe : Options :=
  mkOptions 16 false false false (bytes_of "abcABC123<>#") 150.

Example Generate_default_run :
  Generate 1 (const_source x07) NewOpts world0
  = Some ((bytes_of "7777777777777777", None), mkWorld [MaxBuffLength] []).
Proof. vm_compute. reflexivity. Qed.

(** ** Basic facts *)

Lemma len_nil {A : Type} : len (@nil A) = 0.
Proof. reflexivity. Qed.

Lemma len_app {A : Type} (l1 l2 : list A) : len (l1 ++ l2) = len l1 + len l2.
Proof. unfold len. rewrite length_app. lia. Qed.

Lemma len_nonneg {A : Type} (l : list A) : 0 <= len l.
Proof. unfold len. lia. Qed.

Lemma byte_val_range (b : byte) : 0 <= byte_val b < 256.
Proof.
  unfold byte_val. pose proof (Byte.to_N_bounded b) as H.
  apply N2Z.inj_le in H. simpl in H. lia.
Qed.

Lemma wrap_int_small (x : Z) : min_int <= x <= max_int -> wrap_int x = x.
Proof.
  unfold wrap_int, min_int, max_int. intros H.
  rewrite Z.mod_small; lia.
Qed.

Lemma wrap_int_range (x : Z) : min_int <= wrap_int x <= max_int.
Proof.
  unfold wrap_int, min_int, max_int.
  pose proof (Z.mod_pos_bound (x + 2 ^ 63) (2 ^ 64)). lia.
Qed.

(** *** The inner loop in closed form *)

(** One pass over a buffer appends the images of the accepted bytes, in
    order, and stops at the target length. *)
Lemma fill_spec (length : Z) charset charsetLen maxByte buf :
  forall output,
    fill length charset charsetLen maxByte buf output
    = output ++ firstn (Z.to_nat (length - len output))
                       (map (pick charset charsetLen)
                            (filter (accept maxByte) buf)).
Proof.
  induction buf as [|b rest IH]; intros output; simpl.
  - now rewrite firstn_nil, app_nil_r.
  - destruct (Z.ltb_spec (len output) length) as [Hlt|Hge].
    + destruct (accept maxByte b) eqn:Hacc.
      * rewrite IH, len_app. unfold len at 2. simpl List.length.
        replace (Z.to_nat (length - len output))
          with (S (Z.to_nat (length - (len output + Z.of_nat 1)))) by lia.
        simpl. now rewrite <- app_assoc.
      * apply IH.
    + replace (Z.to_nat (length - len output)) with O by lia.
      now rewrite app_nil_r.
Qed.

Lemma fill_len_le (length : Z) charset charsetLen maxByte buf output :
  len output <= length ->
  len (fill length charset charsetLen maxByte buf output) <= length.
Proof.
  intros H. rewrite fill_spec, len_app. unfold len at 2.
  rewrite length_firstn. lia.
Qed.

(** A pass adds at most one character per byte read. *)
Lemma fill_len_buf (length : Z) charset charsetLen maxByte buf output :
  len (fill length charset charsetLen maxByte buf output)
  <= len output + len buf.
Proof.
  rewrite fill_spec, len_app. unfold len.
  rewrite length_firstn, length_map.
  pose proof (filter_length_le (accept maxByte) buf). lia.
Qed.

(** *** What a call does to the world *)

Lemma rand_Read_world src size w :
  snd (rand_Read src size w) = mkWorld (size :: requests w) (stdout w).
Proof. unfold rand_Read. now destruct (src _). Qed.

(** A tactic for the case analysis on one turn of the outer loop. *)
Ltac loop_step w1 Hrd :=
  match goal with
  | |- context [rand_Read ?s ?n ?w] =>
      let r := fresh "r" in
      pose proof (rand_Read_world s n w) as Hrd;
      destruct (rand_Read s n w) as [r w1]; simpl in Hrd; subst w1;
      destruct r
  | H : context [rand_Read ?s ?n ?w] |- _ =>
      let r := fresh "r" in
      pose proof (rand_Read_world s n w) as Hrd;
      destruct (rand_Read s n w) as [r w1]; simpl in Hrd; subst w1;
      destruct r
  end.

Lemma reads_between_refl w : reads_between w w = 0.
Proof. unfold reads_between. lia. Qed.

Lemma reads_between_read w size out w' :
  reads_between w w'
  = 1 + reads_between (mkWorld (size :: requests w) out) w'.
Proof.
  unfold reads_between, len. cbn [requests List.length]. lia.
Qed.

(** ** The outer loop

    The facts below hold for every instance of the loop, whatever its
    parameters. *)

Section OuterLoop.

Variable src : Source.
Variables length maxBadReads : Z.
Variable charset : list byte.
Variables charsetLen maxByte : Z.

(** The outer loop only ever asks for [MaxBuffLength] bytes, and prints
    nothing. *)
Lemma sample_loop_world fuel :
  forall output badReads w r w',
    sample_loop fuel src length maxBadReads charset charsetLen maxByte
                output badReads w = Some (r, w') ->
    stdout w' = stdout w /\
    exists k, requests w' = repeat MaxBuffLength k ++ requests w.
Proof.
  induction fuel as [|fuel IH]; intros output badReads w r w' H; simpl in H.
  - destruct (len output <? length); [discriminate|].
    inversion H; subst. split; [reflexivity | now exists O].
  - destruct (len output <? length).
    + loop_step w1 Hrd.
      * destruct (wrap_int (badReads + 1) >? maxBadReads).
        -- inversion H; subst. split; [reflexivity | now exists 1%nat].
        -- apply IH in H. destruct H as [Hs [k Hk]]. simpl in *.
           split; [assumption|]. exists (S k).
           rewrite Hk. change (MaxBuffLength :: requests w)
             with (repeat MaxBuffLength 1 ++ requests w).
           rewrite app_assoc, <- repeat_app.
           now replace (k + 1)%nat with (S k) by lia.
      * inversion H; subst. split; [reflexivity | now exists 1%nat].
    + inversion H; subst. split; [reflexivity | now exists O].
Qed.

(** More fuel never changes an answer. *)
Lemma sample_loop_fuel_mono fuel :
  forall output badReads w res,
    sample_loop fuel src length maxBadReads charset charsetLen maxByte
                output badReads w = Some res ->
    forall fuel', (fuel <= fuel')%nat ->
    sample_loop fuel' src length maxBadReads charset charsetLen maxByte
                output badReads w = Some res.
Proof.
  induction fuel as [|fuel IH]; intros output badReads w res H fuel' Hle.
  - simpl in H. destruct (len output <? length) eqn:E; [discriminate|].
    destruct fuel'; simpl; now rewrite E.
  - destruct fuel' as [|fuel']; [lia|]. simpl in *.
    destruct (len output <? length); [|assumption].
    destruct (rand_Read src MaxBuffLength w) as [[buf|e] w1]; [|assumption].
    destruct (wrap_int (badReads + 1) >? maxBadReads); [assumption|].
    apply IH with (fuel' := fuel') in H; [assumption | lia].
Qed.

(** A normal exit of the loop hands back exactly [length] bytes. *)
Lemma sample_loop_ok_len fuel :
  forall output badReads w s w',
    len output <= length ->
    sample_loop fuel src length maxBadReads charset charsetLen maxByte
                output badReads w = Some ((s, None), w') ->
    len s = length.
Proof.
  induction fuel as [|fuel IH]; intros output badReads w s w' Hle H; simpl in H.
  - destruct (Z.ltb_spec (len output) length); [discriminate|].
    inversion H; subst. lia.
  - destruct (Z.ltb_spec (len output) length).
    + loop_step w1 Hrd; [|discriminate].
      destruct (wrap_int (badReads + 1) >? maxBadReads); [discriminate|].
      eapply IH; [|exact H]. now apply fill_len_le.
    + inversion H; subst. lia.
Qed.

(** An exit with an error hands back the empty string. *)
Lemma sample_loop_err_nil fuel :
  forall output badReads w s e w',
    sample_loop fuel src length maxBadReads charset charsetLen maxByte
                output badReads w = Some ((s, Some e), w') ->
    s = [].
Proof.
  induction fuel as [|fuel IH]; intros output badReads w s e w' H; simpl in H.
  - destruct (len output <? length); [discriminate | now inversion H].
  - destruct (len output <? length); [|now inversion H].
    loop_step w1 Hrd; [|now inversion H].
    destruct (wrap_int (badReads + 1) >? maxBadReads); [now inversion H|].
    eapply IH; exact H.
Qed.

(** The only errors of the loop are the retry budget and the source. *)
Lemma sample_loop_errors fuel :
  forall output badReads w s e w',
    sample_loop fuel src length maxBadReads charset charsetLen maxByte
                output badReads w = Some ((s, Some e), w') ->
    e = ErrTooManyBadReads \/ exists msg, e = ErrSource msg.
Proof.
  induction fuel as [|fuel IH]; intros output badReads w s e w' H; simpl in H.
  - destruct (len output <? length); [discriminate | now inversion H].
  - destruct (len output <? length); [|now inversion H].
    loop_step w1 Hrd.
    + destruct (wrap_int (badReads + 1) >? maxBadReads).
      * inversion H; subst. now left.
      * eapply IH; exact H.
    + inversion H; subst. right. now eexists.
Qed.

(** With the counter at [badReads] and [n] more reads allowed by the
    budget, [S n] units of fuel are enough and at most [S n] reads are
    made. *)
Lemma sample_loop_terminates :
  forall (n : nat) output badReads w,
    0 <= badReads < max_int ->
    maxBadReads < max_int ->
    maxBadReads - badReads <= Z.of_nat n ->
    exists r w',
      sample_loop (S n) src length maxBadReads charset charsetLen maxByte
                  output badReads w = Some (r, w') /\
      reads_between w w' <= Z.of_nat (S n).
Proof.
  assert (Hone : forall w out,
             reads_between w (mkWorld (MaxBuffLength :: requests w) out) = 1).
  { intros w out.
    rewrite (reads_between_read w MaxBuffLength out), reads_between_refl.
    reflexivity. }
  induction n as [|n IH]; intros output badReads w Hb Hm Hn;
    cbn [sample_loop].
  - destruct (len output <? length).
    + loop_step w1 Hrd.
      * rewrite wrap_int_small by (unfold min_int, max_int in *; lia).
        destruct (Z.gtb_spec (badReads + 1) maxBadReads); [|lia].
        do 2 eexists. split; [reflexivity|]. rewrite Hone. lia.
      * do 2 eexists. split; [reflexivity|]. rewrite Hone. lia.
    + do 2 eexists. split; [reflexivity|]. rewrite reads_between_refl. lia.
  - destruct (len output <? length).
    + loop_step w1 Hrd.
      * rewrite wrap_int_small by (unfold min_int, max_int in *; lia).
        destruct (Z.gtb_spec (badReads + 1) maxBadReads).
        -- do 2 eexists. split; [reflexivity|]. rewrite Hone. lia.
        -- destruct (IH (fill length charset charsetLen maxByte data output)
                        (badReads + 1)
                        (mkWorld (MaxBuffLength :: requests w) (stdout w)))
             as (r & w' & Hrun & Hreads); try lia.
           exists r, w'. split; [exact Hrun|].
           rewrite (reads_between_read w MaxBuffLength (stdout w)). lia.
      * do 2 eexists. split; [reflexivity|]. rewrite Hone. lia.
    + do 2 eexists. split; [reflexivity|]. rewrite reads_between_refl. lia.
Qed.

(** The sampler does not look at what was printed. *)
Lemma sample_loop_stdout_irrelevant fuel :
  forall output badReads w1 w2,
    requests w1 = requests w2 ->
    observe (sample_loop fuel src length maxBadReads charset charsetLen
                         maxByte output badReads w1)
    = observe (sample_loop fuel src length maxBadReads charset charsetLen
                           maxByte output badReads w2).
Proof.
  induction fuel as [|fuel IH]; intros output badReads w1 w2 Hrq;
    cbn [sample_loop].
  - destruct (len output <? length); [reflexivity|].
    cbn. now rewrite Hrq.
  - destruct (len output <? length); [|cbn; now rewrite Hrq].
    unfold rand_Read. rewrite Hrq.
    destruct (src (List.length (requests w2))) as [data|e].
    + destruct (wrap_int (badReads + 1) >? maxBadReads);
        [reflexivity|]. apply IH. reflexivity.
    + reflexivity.
Qed.

(** The read that brings the counter past the budget ends the call with
    an error, whatever that read put in the output. *)
Lemma sample_loop_last_read_fails fuel output w data :
  0 <= maxBadReads < max_int ->
  len output < length ->
  src (List.length (requests w)) = ReadOk data ->
  sample_loop (S fuel) src length maxBadReads charset charsetLen maxByte
              output maxBadReads w
  = Some (([], Some ErrTooManyBadReads),
          mkWorld (MaxBuffLength :: requests w) (stdout w)).
Proof.
  intros Hm Hlt Hsrc. cbn [sample_loop].
  destruct (Z.ltb_spec (len output) length); [|lia].
  unfold rand_Read. rewrite Hsrc.
  rewrite wrap_int_small by (unfold min_int, max_int in *; lia).
  destruct (Z.gtb_spec (maxBadReads + 1) maxBadReads); [reflexivity | lia].
Qed.

End OuterLoop.

(** ** Counting residues

    Among the integers below [m], those congruent to [j] modulo [n]. *)

Lemma zrange_S m : zrange (S m) = zrange m ++ [Z.of_nat m].
Proof. unfold zrange. rewrite seq_S, map_app. reflexivity. Qed.

Lemma count_residue (n j : Z) :
  0 < n -> 0 <= j < n ->
  forall m : nat,
    len (filter (fun v => v mod n =? j) (zrange m))
    = Z.of_nat m / n + (if j <? Z.of_nat m mod n then 1 else 0).
Proof.
  intros Hn Hj. induction m as [|m IH].
  - cbn [zrange seq map filter]. rewrite Z.mod_0_l by lia.
    rewrite Z.div_0_l by lia.
    destruct (Z.ltb_spec j 0); [lia | reflexivity].
  - rewrite zrange_S, filter_app, len_app, IH. cbn [filter].
    rewrite Nat2Z.inj_succ. unfold Z.succ.
    set (x := Z.of_nat m).
    pose proof (Z.mod_pos_bound x n Hn) as Hr.
    pose proof (Z.div_mod x n ltac:(lia)) as Hx.
    destruct (Z.eq_dec (x mod n) (n - 1)) as [Hlast|Hmid].
    + assert (Hq : (x + 1) / n = x / n + 1).
      { symmetry. apply Z.div_unique with (r := 0); lia. }
      assert (Hm : (x + 1) mod n = 0).
      { symmetry. apply Z.mod_unique with (q := x / n + 1); lia. }
      rewrite Hq, Hm.
      destruct (Z.eqb_spec (x mod n) j), (Z.ltb_spec j (x mod n)),
        (Z.ltb_spec j 0); cbn [List.length len]; unfold len; simpl; lia.
    + assert (Hq : (x + 1) / n = x / n).
      { symmetry. apply Z.div_unique with (r := x mod n + 1); lia. }
      assert (Hm : (x + 1) mod n = x mod n + 1).
      { symmetry. apply Z.mod_unique with (q := x / n); lia. }
      rewrite Hq, Hm.
      destruct (Z.eqb_spec (x mod n) j), (Z.ltb_spec j (x mod n)),
        (Z.ltb_spec j (x mod n + 1)); unfold len; simpl; lia.
Qed.

Lemma filter_below (P : Z -> bool) (M : nat) :
  forall m : nat, (M <= m)%nat ->
    filter (fun v => (v <? Z.of_nat M) && P v) (zrange m)
    = filter P (zrange M).
Proof.
  induction m as [|m IH]; intros Hle.
  - replace M with O by lia. reflexivity.
  - destruct (Nat.eq_dec M (S m)) as [->|Hne].
    + apply filter_ext_in. intros v Hin. unfold zrange in Hin.
      apply in_map_iff in Hin. destruct Hin as (k & <- & Hk).
      apply in_seq in Hk.
      destruct (Z.ltb_spec (Z.of_nat k) (Z.of_nat (S m))); [reflexivity | lia].
    + rewrite zrange_S, filter_app, IH by lia. cbn [filter].
      destruct (Z.ltb_spec (Z.of_nat m) (Z.of_nat M)); [lia|].
      cbn [andb]. now rewrite app_nil_r.
Qed.

Lemma all_bytes_vals : map byte_val all_bytes = zrange 256.
Proof. vm_compute. reflexivity. Qed.

Lemma all_bytes_complete (b : byte) : In b all_bytes.
Proof.
  assert (H : existsb (Byte.eqb b) all_bytes = true)
    by (destruct b; vm_compute; reflexivity).
  apply existsb_exists in H. destruct H as (c & Hin & Heq).
  apply Byte.byte_dec_bl in Heq. now subst.
Qed.

Lemma all_bytes_NoDup : NoDup all_bytes.
Proof.
  apply (NoDup_map_inv byte_val). rewrite all_bytes_vals.
  unfold zrange. apply Injective_map_NoDup; [|apply seq_NoDup].
  intros x y H. now apply Nat2Z.inj.
Qed.

Lemma filter_map_len {A B : Type} (f : A -> B) (P : B -> bool) (l : list A) :
  len (filter (fun a => P (f a)) l) = len (filter P (map f l)).
Proof.
  induction l as [|a l IH]; [reflexivity|]. cbn [map filter].
  destruct (P (f a)); unfold len in *; cbn [List.length]; lia.
Qed.

Lemma maxByte_of_eq (n : Z) : 2 <= n <= 256 -> maxByte_of n = 255 - 256 mod n.
Proof.
  intros Hn. unfold maxByte_of. rewrite Z.rem_mod_nonneg by lia.
  pose proof (Z.mod_pos_bound 256 n ltac:(lia)).
  apply Z.mod_small. lia.
Qed.

Lemma accepted_residue_count (n j : Z) :
  2 <= n <= 256 -> 0 <= j < n ->
  len (filter (fun b => accept (maxByte_of n) b && (byte_val b mod n =? j))
              all_bytes) = 256 / n.
Proof.
  intros Hn Hj.
  rewrite (filter_map_len byte_val
             (fun v => (v <=? maxByte_of n) && (v mod n =? j))).
  rewrite all_bytes_vals, maxByte_of_eq by assumption.
  pose proof (Z.mod_pos_bound 256 n ltac:(lia)) as Hr.
  pose proof (Z.div_mod 256 n ltac:(lia)) as Hd.
  assert (Hq : 0 <= 256 / n) by (apply Z.div_pos; lia).
  set (M := Z.to_nat (n * (256 / n))).
  assert (HM : Z.of_nat M = n * (256 / n)) by (unfold M; nia).
  rewrite (filter_ext _ (fun v => (v <? Z.of_nat M) && (v mod n =? j))).
  2:{ intros v. f_equal. rewrite HM.
      destruct (Z.leb_spec v (255 - 256 mod n)), (Z.ltb_spec v (n * (256 / n)));
        lia. }
  rewrite filter_below by lia.
  rewrite count_residue by lia. rewrite HM.
  rewrite Z.mul_comm, Z.div_mul, Z.mod_mul by lia.
  destruct (Z.ltb_spec j 0); lia.
Qed.

Lemma rem_byte_val (n : Z) (b : byte) :
  0 < n -> Z.rem (byte_val b) n = byte_val b mod n.
Proof.
  intros Hn. pose proof (byte_val_range b). apply Z.rem_mod_nonneg; lia.
Qed.

Lemma preimage_len (n j : Z) :
  2 <= n <= 256 -> 0 <= j < n -> len (preimage n j) = 256 / n.
Proof.
  intros Hn Hj. unfold preimage.
  rewrite <- (accepted_residue_count n j Hn Hj). f_equal.
  apply filter_ext. intros b. now rewrite rem_byte_val by lia.
Qed.

(** The index computed by [pick] is inside the alphabet. *)
Lemma pick_index_in_range (charset : list byte) (b : byte) :
  0 < len charset ->
  (Z.to_nat (Z.rem (byte_val b) (len charset)) < List.length charset)%nat.
Proof.
  intros Hn. rewrite rem_byte_val by assumption.
  pose proof (Z.mod_pos_bound (byte_val b) (len charset) Hn).
  unfold len in *. lia.
Qed.

(** ** The sampler: rejection sampling *)

(** C2.  For an alphabet of [n] characters, [2 <= n <= 256]: the
    acceptance bound is [255 - 256 mod n]; a byte is accepted exactly when
    its value is at most that bound; one pass over a buffer appends, in
    order and up to the target length, [charset[b mod n]] for the accepted
    bytes [b] and nothing for the others, every index used being inside the
    alphabet; and for every index [j < n] exactly [256 / n] of the 256 byte
    values are accepted and select [j]. *)
Theorem rejection_sampling_unbiased (n : Z) (charset : list byte) :
  2 <= n <= 256 ->
  len charset = n ->
  maxByte_of n = 255 - 256 mod n
  /\ (forall b, accept (maxByte_of n) b = true
                <-> byte_val b <= 255 - 256 mod n)
  /\ (forall b, pick charset n b
                = nth (Z.to_nat (byte_val b mod n)) charset x00
                /\ (Z.to_nat (byte_val b mod n) < List.length charset)%nat)
  /\ (forall length buf output,
         fill length charset n (maxByte_of n) buf output
         = output ++ firstn (Z.to_nat (length - len output))
                            (map (pick charset n)
                                 (filter (accept (maxByte_of n)) buf)))
  /\ (forall j, 0 <= j < n ->
         len (preimage n j) = 256 / n
         /\ forall b, In b (preimage n j)
                      <-> byte_val b <= 255 - 256 mod n
                          /\ byte_val b mod n = j).
Proof.
  intros Hn Hlen. pose proof (maxByte_of_eq n Hn) as Hmax.
  split; [exact Hmax|]. split; [|split; [|split]].
  - intros b. unfold accept. rewrite Hmax. apply Z.leb_le.
  - intros b. unfold pick. rewrite rem_byte_val by lia. split; [reflexivity|].
    rewrite <- (rem_byte_val n b), <- Hlen by lia.
    apply pick_index_in_range. lia.
  - intros length buf output. apply fill_spec.
  - intros j Hj. split; [now apply preimage_len|].
    intros b. unfold preimage. rewrite filter_In, andb_true_iff.
    unfold accept. rewrite Hmax, Z.leb_le, Z.eqb_eq, rem_byte_val by lia.
    pose proof (all_bytes_complete b). tauto.
Qed.

Lemma rejection_sampling_unbiased_witness :
  maxByte_of 62 = 255 - 256 mod 62
  /\ len (preimage 62 7) = 256 / 62.
Proof.
  destruct (rejection_sampling_unbiased 62 (Numeric ++ Lowercase ++ Uppercase))
    as (Hmax & _ & _ & _ & Hcount).
  - lia.
  - reflexivity.
  - split; [exact Hmax|]. apply Hcount. lia.
Defined.

(** The 256 byte values are listed once each, so the counts above are
    counts of byte values. *)
Lemma all_bytes_enumerates : NoDup all_bytes /\ forall b, In b all_bytes.
Proof. split; [apply all_bytes_NoDup | apply all_bytes_complete]. Qed.

(** ** The sampler: results and errors *)

Lemma randString_ok_len fuel src length maxBadReads charset w s w' :
  0 <= length ->
  randString fuel src length maxBadReads charset w = Some ((s, None), w') ->
  len s = length.
Proof.
  intros Hlen H. unfold randString in H.
  destruct (Z.eqb_spec length 0) as [->|Hnz].
  - now inversion H.
  - destruct ((len charset <? 2) || (len charset >? 256)); [discriminate|].
    eapply sample_loop_ok_len; [|exact H]. rewrite len_nil. exact Hlen.
Qed.

Lemma randString_err_nil fuel src length maxBadReads charset w s e w' :
  randString fuel src length maxBadReads charset w = Some ((s, Some e), w') ->
  s = [].
Proof.
  intros H. unfold randString in H.
  destruct (length =? 0); [discriminate|].
  destruct ((len charset <? 2) || (len charset >? 256)); [now inversion H|].
  eapply sample_loop_err_nil; exact H.
Qed.

Lemma randString_errors fuel src length maxBadReads charset w s e w' :
  randString fuel src length maxBadReads charset w = Some ((s, Some e), w') ->
  (e = ErrCharsetSize /\ (len charset < 2 \/ 256 < len charset) /\ w' = w)
  \/ (2 <= len charset <= 256
      /\ (e = ErrTooManyBadReads \/ exists msg, e = ErrSource msg)).
Proof.
  intros H. unfold randString in H.
  destruct (length =? 0); [discriminate|].
  destruct (Z.ltb_spec (len charset) 2); cbn [orb] in H.
  - inversion H; subst. left. repeat split; lia.
  - destruct (Z.gtb_spec (len charset) 256).
    + inversion H; subst. left. repeat split; lia.
    + right. split; [lia|]. eapply sample_loop_errors; exact H.
Qed.

Lemma randString_world fuel src length maxBadReads charset w r w' :
  randString fuel src length maxBadReads charset w = Some (r, w') ->
  stdout w' = stdout w /\
  exists k, requests w' = repeat MaxBuffLength k ++ requests w.
Proof.
  intros H. unfold randString in H.
  destruct (length =? 0).
  { inversion H; subst. split; [reflexivity | now exists O]. }
  destruct ((len charset <? 2) || (len charset >? 256)).
  { inversion H; subst. split; [reflexivity | now exists O]. }
  eapply sample_loop_world; exact H.
Qed.

Lemma randString_fuel_mono fuel fuel' src length maxBadReads charset w res :
  (fuel <= fuel')%nat ->
  randString fuel src length maxBadReads charset w = Some res ->
  randString fuel' src length maxBadReads charset w = Some res.
Proof.
  intros Hle. unfold randString.
  destruct (length =? 0); [trivial|].
  destruct ((len charset <? 2) || (len charset >? 256)); [trivial|].
  intros H. eapply sample_loop_fuel_mono; eassumption.
Qed.

(** *** Every character comes from the alphabet *)

Lemma pick_In (charset : list byte) (b : byte) :
  0 < len charset -> In (pick charset (len charset) b) charset.
Proof.
  intros Hn. unfold pick. apply nth_In. now apply pick_index_in_range.
Qed.

Lemma fill_in_charset (length : Z) charset maxByte buf :
  0 < len charset ->
  forall output,
    Forall (fun c => In c charset) output ->
    Forall (fun c => In c charset)
           (fill length charset (len charset) maxByte buf output).
Proof.
  intros Hn. induction buf as [|b rest IH]; intros output Hout;
    cbn [fill]; [assumption|].
  destruct (len output <? length); [|assumption].
  destruct (accept maxByte b); apply IH; [|assumption].
  apply Forall_app. split; [assumption|].
  constructor; [now apply pick_In | constructor].
Qed.

Lemma sample_loop_in_charset fuel src length maxBadReads charset maxByte :
  0 < len charset ->
  forall output badReads w s e w',
    Forall (fun c => In c charset) output ->
    sample_loop fuel src length maxBadReads charset (len charset) maxByte
                output badReads w = Some ((s, e), w') ->
    Forall (fun c => In c charset) s.
Proof.
  intros Hn. induction fuel as [|fuel IH];
    intros output badReads w s e w' Hout H; cbn [sample_loop] in H.
  - destruct (len output <? length); [discriminate | now inversion H; subst].
  - destruct (len output <? length); [|now inversion H; subst].
    loop_step w1 Hrd; [|inversion H; subst; constructor].
    destruct (wrap_int (badReads + 1) >? maxBadReads).
    + inversion H; subst. constructor.
    + eapply IH; [|exact H]. now apply fill_in_charset.
Qed.

(** Whatever the sampler returns is made of characters of the alphabet. *)
Lemma randString_in_charset fuel src length maxBadReads charset w s e w' :
  randString fuel src length maxBadReads charset w = Some ((s, e), w') ->
  Forall (fun c => In c charset) s.
Proof.
  unfold randString. intros H.
  destruct (length =? 0); [inversion H; subst; constructor|].
  destruct (Z.ltb_spec (len charset) 2); cbn [orb] in H;
    [inversion H; subst; constructor|].
  destruct (len charset >? 256); [inversion H; subst; constructor|].
  eapply sample_loop_in_charset; [lia | constructor | exact H].
Qed.

(** *** Termination and the number of reads *)

(** C9, as the code has it.  For every length, alphabet and entropy
    source (also one whose bytes are all rejected, or one that fails), and
    every [maxBadReads] below the largest [int], the sampler returns a
    string or an error after at most [max 1 (maxBadReads + 1)] calls of
    [rand.Read], each of them on a buffer of [MaxBuffLength] = 2048
    bytes. *)
Theorem randString_terminates src length maxBadReads charset w :
  maxBadReads < max_int ->
  exists r w',
    randString (Z.to_nat (Z.max 1 (maxBadReads + 1)))
               src length maxBadReads charset w = Some (r, w')
    /\ reads_between w w' <= Z.max 1 (maxBadReads + 1)
    /\ exists k, requests w' = repeat 2048%nat k ++ requests w.
Proof.
  intros Hm. unfold randString.
  destruct (length =? 0).
  { exists ([], None), w. rewrite reads_between_refl.
    repeat split; [lia | now exists O]. }
  destruct ((len charset <? 2) || (len charset >? 256)).
  { exists ([], Some ErrCharsetSize), w. rewrite reads_between_refl.
    repeat split; [lia | now exists O]. }
  replace (Z.to_nat (Z.max 1 (maxBadReads + 1)))
    with (S (Z.to_nat (Z.max 0 maxBadReads))) by lia.
  destruct (sample_loop_terminates src length maxBadReads charset
              (len charset) (maxByte_of (len charset))
              (Z.to_nat (Z.max 0 maxBadReads)) [] 0 w)
    as (r & w' & Hrun & Hreads); try (unfold max_int in *; lia).
  exists r, w'. split; [exact Hrun|]. split; [lia|].
  apply sample_loop_world in Hrun. apply Hrun.
Qed.

Lemma randString_terminates_witness :
  exists r w',
    randString 3 stuck_source 5 2 (bytes_of "abc") world0 = Some (r, w')
    /\ reads_between world0 w' <= 3.
Proof.
  destruct (randString_terminates stuck_source 5 2 (bytes_of "abc") world0)
    as (r & w' & Hrun & Hreads & _).
  - unfold max_int. lia.
  - exists r, w'. split; [exact Hrun | exact Hreads].
Defined.

(** With a negative budget the sampler still reads once: one read is
    more than [maxBadReads + 1 = 0]. *)
Lemma randString_negative_budget_reads_once :
  exists r w',
    randString 1 (const_source x00) 1 (-1) (bytes_of "ab") world0
    = Some (r, w')
    /\ reads_between world0 w' = 1
    /\ reads_between world0 w' > -1 + 1.
Proof.
  exists ([], Some ErrTooManyBadReads), (mkWorld [MaxBuffLength] []).
  split; [vm_compute; reflexivity | split; [reflexivity | reflexivity]].
Qed.

(** At the largest [int] the counter wraps around instead of passing the
    budget: on a source whose bytes are all rejected the loop never
    exits, whatever the fuel. *)
Lemma sample_loop_spins_at_max_int :
  forall fuel badReads w,
    sample_loop fuel stuck_source 1 max_int (bytes_of "abc") 3 (maxByte_of 3)
                [] badReads w = None.
Proof.
  induction fuel as [|fuel IH]; intros badReads w; [reflexivity|].
  cbn [sample_loop]. change (len (@nil byte) <? 1) with true. cbv iota.
  unfold rand_Read, stuck_source, const_source.
  replace (fill 1 (bytes_of "abc") 3 (maxByte_of 3)
             (firstn MaxBuffLength (repeat xff MaxBuffLength)) [])
    with (@nil byte) by (vm_compute; reflexivity).
  pose proof (wrap_int_range (badReads + 1)) as Hr.
  destruct (Z.gtb_spec (wrap_int (badReads + 1)) max_int); [lia|].
  apply IH.
Qed.

Lemma randString_diverges_at_max_int :
  forall fuel,
    randString fuel stuck_source 1 max_int (bytes_of "abc") world0 = None.
Proof. intros fuel. apply sample_loop_spins_at_max_int. Qed.

(** *** The retry budget *)

(** Asked for 2049 characters with one bad read allowed, the sampler
    needs a second read, and that read is always the one past the budget:
    whatever the bytes, two reads that succeed end in the error. *)
Lemma randString_2049_always_fails src charset w :
  2 <= len charset <= 256 ->
  (forall k, exists data, src k = ReadOk data) ->
  randString 2 src 2049 1 charset w
  = Some (([], Some ErrTooManyBadReads),
          mkWorld (MaxBuffLength :: MaxBuffLength :: requests w) (stdout w)).
Proof.
  intros Hsize Hsrc. unfold randString.
  change (2049 =? 0) with false. cbv iota.
  destruct (Z.ltb_spec (len charset) 2); [lia|].
  destruct (Z.gtb_spec (len charset) 256); [lia|]. cbn [orb].
  destruct (Hsrc (List.length (requests w))) as [data Hdata].
  cbn [sample_loop]. change (len (@nil byte) <? 2049) with true. cbv iota.
  unfold rand_Read at 1. rewrite Hdata.
  change (wrap_int (0 + 1) >? 1) with false. cbv iota.
  set (w1 := mkWorld (MaxBuffLength :: requests w) (stdout w)).
  destruct (Hsrc (List.length (requests w1))) as [data1 Hdata1].
  apply (sample_loop_last_read_fails src 2049 1 _ _ _ 0 _ w1 data1);
    [unfold max_int; lia | | exact Hdata1].
  match goal with |- len (fill ?l ?c ?n ?m ?b ?o) < _ =>
    pose proof (fill_len_buf l c n m b o) as Hb end.
  rewrite len_nil in Hb. unfold len in *.
  rewrite length_firstn in Hb. unfold MaxBuffLength in *. lia.
Qed.

Lemma Generate_2049_always_fails src w :
  (forall k, exists data, src k = ReadOk data) ->
  Generate 2 src opts_2049 w
  = Some (([], Some ErrTooManyBadReads),
          mkWorld (MaxBuffLength :: MaxBuffLength :: requests w) (stdout w)).
Proof.
  intros Hsrc.
  change (Generate 2 src opts_2049 w)
    with (randString 2 src 2049 1 (bytes_of "ab") w).
  apply randString_2049_always_fails; [|exact Hsrc].
  vm_compute. split; discriminate.
Qed.

(** When no byte is rejected a pass adds one character per byte, up to
    the target length. *)
Lemma fill_len_all_accepted (length : Z) charset charsetLen maxByte buf output :
  (forall b, accept maxByte b = true) ->
  len output <= length ->
  len (fill length charset charsetLen maxByte buf output)
  = Z.min length (len output + len buf).
Proof.
  intros Hall Hle. rewrite fill_spec, len_app.
  replace (filter (accept maxByte) buf) with buf.
  - unfold len in *. rewrite length_firstn, length_map. lia.
  - induction buf as [|b rest IH]; [reflexivity|].
    cbn [filter]. rewrite Hall. now f_equal.
Qed.

Lemma accept_all_255 (b : byte) : accept (maxByte_of 2) b = true.
Proof.
  unfold accept. change (maxByte_of 2) with 255.
  pose proof (byte_val_range b). apply Z.leb_le. lia.
Qed.

(** C1, on the code.  [Generate] asked for 2049 characters over ["ab"] with
    [MaxBadReads = 1], on any source that fills its buffer: no byte is
    ever rejected, the first read yields 2048 characters and the second
    read brings the output to the target length; the call nevertheless
    ends with "too many bad reads" and the empty string, because the
    counter is incremented and compared after every read, the one that
    completes the output included. *)
Theorem Generate_completing_read_is_counted (src : Source) (w : world) :
  (forall k, exists data,
        src k = ReadOk data /\ List.length data = MaxBuffLength) ->
  exists data0 data1,
    src (List.length (requests w)) = ReadOk data0
    /\ src (S (List.length (requests w))) = ReadOk data1
    /\ let charset := bytes_of "ab" in
       let first := fill 2049 charset 2 (maxByte_of 2) data0 [] in
       let second := fill 2049 charset 2 (maxByte_of 2) data1 first in
       len first = 2048
       /\ len second = 2049
       /\ Generate 2 src opts_2049 w
          = Some (([], Some ErrTooManyBadReads),
                  mkWorld (MaxBuffLength :: MaxBuffLength :: requests w)
                          (stdout w)).
Proof.
  intros Hsrc.
  destruct (Hsrc (List.length (requests w))) as (data0 & Hd0 & Hl0).
  destruct (Hsrc (S (List.length (requests w)))) as (data1 & Hd1 & Hl1).
  exists data0, data1. split; [exact Hd0|]. split; [exact Hd1|]. cbv zeta.
  assert (Hfirst : len (fill 2049 (bytes_of "ab") 2 (maxByte_of 2) data0 [])
                   = 2048).
  { rewrite fill_len_all_accepted by (apply accept_all_255 || (rewrite len_nil; lia)).
    rewrite len_nil. unfold len. rewrite Hl0. reflexivity. }
  split; [exact Hfirst|]. split.
  - rewrite fill_len_all_accepted by (apply accept_all_255 || lia).
    rewrite Hfirst. unfold len. rewrite Hl1. reflexivity.
  - apply Generate_2049_always_fails. intros k.
    destruct (Hsrc k) as (data & Hd & _). now exists data.
Qed.

Lemma Generate_completing_read_is_counted_witness :
  Generate 2 (const_source x00) opts_2049 world0
  = Some (([], Some ErrTooManyBadReads),
          mkWorld [MaxBuffLength; MaxBuffLength] []).
Proof.
  destruct (Generate_completing_read_is_counted (const_source x00) world0)
    as (data0 & data1 & _ & _ & _ & _ & Hrun).
  - intros k. exists (repeat x00 MaxBuffLength).
    split; [reflexivity | apply repeat_length].
  - exact Hrun.
Defined.

(** ** The entry point *)

Lemma Generate_unfold fuel src opts w :
  Generate fuel src opts w
  = let w1 := if Length opts <=? 0
              then print (InvalidLength (Length opts) DefaultLength) w
              else w in
    let opts' := with_MaxBadReads (effective_MaxBadReads opts)
                   (with_Length (effective_length opts) opts) in
    let cw := getCharset opts' w1 in
    if len (fst cw) =? 0 then Some (([], Some ErrNoValidChars), snd cw)
    else randString fuel src (effective_length opts)
                    (effective_MaxBadReads opts) (fst cw) (snd cw).
Proof.
  unfold Generate, effective_length, effective_MaxBadReads.
  destruct opts as [l en el eu cc m]; cbn [Length MaxBadReads].
  destruct (l <=? 0).
  all: unfold with_Length, with_MaxBadReads;
    cbn [MaxBadReads Length ExcludeNumeric ExcludeLowercase ExcludeUppercase
         CustomCharset].
  all: destruct (m <=? 0);
    cbn [MaxBadReads Length ExcludeNumeric ExcludeLowercase ExcludeUppercase
         CustomCharset].
  all: match goal with
       | |- context [getCharset ?o ?w] => destruct (getCharset o w)
       end; reflexivity.
Qed.

Lemma effective_length_pos opts : 0 < effective_length opts.
Proof.
  unfold effective_length, DefaultLength.
  destruct (Z.leb_spec (Length opts) 0); lia.
Qed.

(** C4.  Whenever [Generate] returns without an error, the string has
    exactly the effective length: the requested length when positive,
    the default 16 otherwise. *)
Theorem Generate_length fuel src opts w s w' :
  Generate fuel src opts w = Some ((s, None), w') ->
  len s = effective_length opts
  /\ effective_length opts
     = (if 0 <? Length opts then Length opts else 16).
Proof.
  intros H. rewrite Generate_unfold in H. cbv zeta in H. split.
  - destruct (len (fst (getCharset _ _)) =? 0); [discriminate|].
    eapply randString_ok_len; [|exact H].
    pose proof (effective_length_pos opts). lia.
  - unfold effective_length, DefaultLength.
    destruct (Z.leb_spec (Length opts) 0), (Z.ltb_spec 0 (Length opts));
      lia || reflexivity.
Qed.

Lemma Generate_length_witness :
  Generate 1 (const_source x2a) (with_Length (-3) NewOpts) world0
  = Some ((bytes_of "GGGGGGGGGGGGGGGG", None),
          mkWorld [MaxBuffLength] [InvalidLength (-3) 16])
  /\ len (bytes_of "GGGGGGGGGGGGGGGG") = 16.
Proof.
  assert (H : Generate 1 (const_source x2a) (with_Length (-3) NewOpts) world0
              = Some ((bytes_of "GGGGGGGGGGGGGGGG", None),
                      mkWorld [MaxBuffLength] [InvalidLength (-3) 16]))
    by (vm_compute; reflexivity).
  split; [exact H|]. exact (proj1 (Generate_length _ _ _ _ _ _ H)).
Defined.

(** A string of positive length costs at least one read. *)
Lemma randString_ok_reads fuel src length maxBadReads charset w s w' :
  0 < length ->
  randString fuel src length maxBadReads charset w = Some ((s, None), w') ->
  1 <= reads_between w w'.
Proof.
  intros Hpos H. unfold randString in H.
  destruct (Z.eqb_spec length 0); [lia|].
  destruct ((len charset <? 2) || (len charset >? 256)); [discriminate|].
  destruct fuel as [|fuel]; cbn [sample_loop] in H;
    rewrite len_nil in H; destruct (Z.ltb_spec 0 length); try lia;
    [discriminate|].
  loop_step w1 Hrd; [|discriminate].
  destruct (wrap_int (0 + 1) >? maxBadReads); [discriminate|].
  apply sample_loop_world in H. destruct H as [_ [k Hk]].
  unfold reads_between, len. rewrite Hk, length_app, repeat_length.
  cbn [requests List.length]. lia.
Qed.

(** C3, as the code has it.  The sampler called with length 0 returns the
    empty string, no error, and reads no entropy, whatever the alphabet,
    the budget and the fuel.  [Generate] never gets there with
    [Length = 0]: it prints a notice and runs exactly as with
    [Length = 16], so that a call that succeeds returns sixteen characters
    and has read entropy at least once. *)
Theorem zero_length_behaviour :
  (forall fuel src maxBadReads charset w,
      randString fuel src 0 maxBadReads charset w = Some (([], None), w))
  /\ (forall fuel src opts w,
         Generate fuel src (with_Length 0 opts) w
         = Generate fuel src (with_Length DefaultLength opts)
                    (print (InvalidLength 0 DefaultLength) w))
  /\ (forall fuel src opts w s w',
         Generate fuel src (with_Length 0 opts) w = Some ((s, None), w') ->
         len s = 16 /\ 1 <= reads_between w w').
Proof.
  split; [|split].
  - intros. reflexivity.
  - intros fuel src opts w. reflexivity.
  - intros fuel src opts w s w' H. rewrite Generate_unfold in H.
    cbv zeta in H.
    change (effective_length (with_Length 0 opts)) with 16 in H.
    match type of H with
    | context [len ?l =? 0] => destruct (len l =? 0); [discriminate|]
    end.
    split.
    + eapply randString_ok_len; [|exact H]. lia.
    + apply randString_ok_reads in H; [|lia].
      unfold reads_between in *. cbn [Length with_Length] in H.
      change (0 <=? 0) with true in H. cbv iota in H.
      destruct (getCharset _ _) as [cs w1] eqn:Hg in H. cbn [snd] in H.
      assert (Hrq : requests w1 = requests w).
      { unfold getCharset in Hg.
        destruct (negb (is_empty _)) in Hg.
        - destruct (negb (isURISafe _)) in Hg; inversion Hg; reflexivity.
        - inversion Hg; reflexivity. }
      rewrite Hrq in H. exact H.
Qed.

Lemma zero_length_behaviour_witness :
  Generate 1 (const_source x07) (with_Length 0 NewOpts) world0
  = Some ((bytes_of "7777777777777777", None),
          mkWorld [MaxBuffLength] [InvalidLength 0 16])
  /\ len (bytes_of "7777777777777777") = 16.
Proof.
  assert (H : Generate 1 (const_source x07) (with_Length 0 NewOpts) world0
              = Some ((bytes_of "7777777777777777", None),
                      mkWorld [MaxBuffLength] [InvalidLength 0 16]))
    by (vm_compute; reflexivity).
  split; [exact H|].
  exact (proj1 (proj2 (proj2 zero_length_behaviour) 1%nat (const_source x07)
                  NewOpts world0 _ _ H)).
Defined.

(** [Generate] with [Length = 0] and otherwise default options: sixteen
    characters come back and one buffer of entropy was read. *)
Lemma Generate_zero_length_reads :
  exists s w',
    Generate 1 (const_source x00) (with_Length 0 NewOpts) world0
    = Some ((s, None), w')
    /\ s = bytes_of "0000000000000000"
    /\ s <> []
    /\ reads_between world0 w' = 1.
Proof.
  exists (bytes_of "0000000000000000"),
         (mkWorld [MaxBuffLength] [InvalidLength 0 16]).
  split; [vm_compute; reflexivity|].
  split; [reflexivity|]. split; [discriminate | reflexivity].
Qed.

(** ** The sampler: the size of the alphabet *)

(** C5, as the code has it.  For every length other than 0 and every
    budget, fuel and source: an alphabet whose size is outside [2, 256]
    makes the sampler return "charset size 2-256" with the empty string
    and an untouched world (no read took place), and an alphabet whose
    size is inside [2, 256], in particular 2 or 256, never gets that
    error. *)
Theorem charset_size_error fuel src length maxBadReads charset w :
  length <> 0 ->
  ((len charset < 2 \/ 256 < len charset) ->
     randString fuel src length maxBadReads charset w
     = Some (([], Some ErrCharsetSize), w))
  /\ (2 <= len charset <= 256 ->
      forall s e w',
        randString fuel src length maxBadReads charset w = Some ((s, e), w') ->
        e <> Some ErrCharsetSize).
Proof.
  intros Hnz. unfold randString.
  destruct (Z.eqb_spec length 0); [contradiction|]. split.
  - intros Hout.
    destruct (Z.ltb_spec (len charset) 2); [reflexivity|].
    destruct (Z.gtb_spec (len charset) 256); [reflexivity | lia].
  - intros Hin s e w' H.
    destruct (Z.ltb_spec (len charset) 2); [lia|].
    destruct (Z.gtb_spec (len charset) 256); [lia|]. cbn [orb] in H.
    destruct e as [e|]; [|discriminate].
    apply sample_loop_errors in H. destruct H as [-> | [msg ->]]; discriminate.
Qed.

Lemma charset_size_error_witness :
  randString 0 failing_source 10 DefaultMaxBadReads (bytes_of "a") world0
  = Some (([], Some ErrCharsetSize), world0)
  /\ randString 0 failing_source 10 DefaultMaxBadReads
                (repeat x00 257) world0
     = Some (([], Some ErrCharsetSize), world0).
Proof.
  split.
  - apply (charset_size_error 0 failing_source 10 DefaultMaxBadReads
             (bytes_of "a") world0); [discriminate|].
    left. vm_compute. reflexivity.
  - apply (charset_size_error 0 failing_source 10 DefaultMaxBadReads
             (repeat x00 257) world0); [discriminate|].
    right. vm_compute. reflexivity.
Defined.

(** With length 0 an alphabet of one character gets no error at all. *)
Lemma randString_zero_length_skips_size_check :
  len (bytes_of "a") = 1
  /\ randString 1 (const_source x00) 0 DefaultMaxBadReads (bytes_of "a") world0
     = Some (([], None), world0).
Proof. split; reflexivity. Qed.

(** Sizes 2 and 256 do produce a string. *)
Lemma randString_extreme_sizes_succeed :
  randString 1 (const_source x01) 3 DefaultMaxBadReads (bytes_of "ab") world0
  = Some ((bytes_of "bbb", None), mkWorld [MaxBuffLength] [])
  /\ randString 1 (const_source xff) 3 DefaultMaxBadReads all_bytes world0
     = Some (([xff; xff; xff], None), mkWorld [MaxBuffLength] []).
Proof. split; vm_compute; reflexivity. Qed.

(** ** Errors come with the empty string *)

(** C10.  Whenever the sampler or [Generate] returns an error, whichever
    it is, the string returned with it is empty. *)
Theorem error_result_is_empty :
  (forall fuel src length maxBadReads charset w s e w',
      randString fuel src length maxBadReads charset w
      = Some ((s, Some e), w') -> s = [])
  /\ (forall fuel src opts w s e w',
         Generate fuel src opts w = Some ((s, Some e), w') -> s = []).
Proof.
  split.
  - intros. eapply randString_err_nil; eassumption.
  - intros fuel src opts w s e w' H. rewrite Generate_unfold in H.
    cbv zeta in H.
    destruct (len (fst (getCharset _ _)) =? 0).
    + now inversion H.
    + eapply randString_err_nil; exact H.
Qed.

Lemma error_result_is_empty_witness :
  exists s w',
    Generate 2 late_source (mkOptions 1 false false false (bytes_of "abc") 1)
             world0
    = Some ((s, Some ErrTooManyBadReads), w')
    /\ s = [].
Proof.
  assert (H : Generate 2 late_source
                (mkOptions 1 false false false (bytes_of "abc") 1) world0
              = Some (([], Some ErrTooManyBadReads),
                      mkWorld [MaxBuffLength; MaxBuffLength] []))
    by (vm_compute; reflexivity).
  exists [], (mkWorld [MaxBuffLength; MaxBuffLength] []).
  split; [exact H|]. exact (proj2 error_result_is_empty _ _ _ _ _ _ _ H).
Defined.

(** ** The charset resolver *)

Lemma byte_in_In (c : byte) (l : list byte) : byte_in c l = true <-> In c l.
Proof.
  unfold byte_in. rewrite existsb_exists. split.
  - intros (x & Hin & Heq). apply Byte.byte_dec_bl in Heq. now subst.
  - intros Hin. exists c. split; [assumption | now apply Byte.byte_dec_lb].
Qed.

Lemma incl_by_computation (l1 l2 : list byte) :
  forallb (fun c => byte_in c l2) l1 = true -> incl l1 l2.
Proof.
  intros H c Hin. rewrite forallb_forall in H. now apply byte_in_In, H.
Qed.

Lemma getCharset_flags opts w :
  CustomCharset opts = [] ->
  getCharset opts w
  = (if ExcludeNumeric opts && ExcludeLowercase opts && ExcludeUppercase opts
     then Alphanumeric
     else (if ExcludeNumeric opts then [] else Numeric)
          ++ (if ExcludeLowercase opts then [] else Lowercase)
          ++ (if ExcludeUppercase opts then [] else Uppercase),
     w).
Proof.
  intros Hc. unfold getCharset. rewrite Hc. cbn [is_empty negb].
  destruct (ExcludeNumeric opts), (ExcludeLowercase opts),
    (ExcludeUppercase opts); reflexivity.
Qed.

(** C6.  Without a custom alphabet the resolver returns the digits, the
    lowercase letters and the uppercase letters, in this order, each
    present exactly when its exclusion flag is false; with the three flags
    set it returns [Alphanumeric], which has the same characters as
    digits ++ lowercase ++ uppercase.  Nothing is printed or read. *)
Theorem getCharset_by_flags opts w :
  CustomCharset opts = [] ->
  fst (getCharset opts w)
  = (if ExcludeNumeric opts && ExcludeLowercase opts && ExcludeUppercase opts
     then Alphanumeric
     else (if ExcludeNumeric opts then [] else Numeric)
          ++ (if ExcludeLowercase opts then [] else Lowercase)
          ++ (if ExcludeUppercase opts then [] else Uppercase))
  /\ snd (getCharset opts w) = w
  /\ (forall c, In c Alphanumeric <-> In c (Numeric ++ Lowercase ++ Uppercase)).
Proof.
  intros Hc. rewrite (getCharset_flags opts w Hc). cbn [fst snd].
  split; [reflexivity|]. split; [reflexivity|].
  intros c. split; apply incl_by_computation; vm_compute; reflexivity.
Qed.

Lemma getCharset_by_flags_witness :
  fst (getCharset (mkOptions 16 true true false [] 150) world0) = Uppercase
  /\ fst (getCharset (mkOptions 16 true true true [] 150) world0)
     = Alphanumeric
  /\ fst (getCharset NewOpts world0) = Numeric ++ Lowercase ++ Uppercase.
Proof.
  split; [|split].
  - exact (proj1 (getCharset_by_flags (mkOptions 16 true true false [] 150)
                    world0 eq_refl)).
  - exact (proj1 (getCharset_by_flags (mkOptions 16 true true true [] 150)
                    world0 eq_refl)).
  - exact (proj1 (getCharset_by_flags NewOpts world0 eq_refl)).
Defined.

Lemma flag_charset_len opts w :
  CustomCharset opts = [] ->
  In (len (fst (getCharset opts w))) [10; 26; 36; 52; 62].
Proof.
  intros Hc. rewrite (getCharset_flags opts w Hc). cbn [fst].
  destruct (ExcludeNumeric opts), (ExcludeLowercase opts),
    (ExcludeUppercase opts); vm_compute; tauto.
Qed.

(** C8.  Without a custom alphabet, whatever the three flags, the resolved
    alphabet is not empty and has between 2 and 256 characters, so that
    [Generate] never returns "no valid chars" and the sampler never
    returns "charset size 2-256". *)
Theorem flag_charset_always_valid opts w :
  CustomCharset opts = [] ->
  fst (getCharset opts w) <> []
  /\ 2 <= len (fst (getCharset opts w)) <= 256
  /\ (forall fuel src s e w',
         Generate fuel src opts w = Some ((s, Some e), w') ->
         e <> ErrNoValidChars /\ e <> ErrCharsetSize)
  /\ (forall fuel src length maxBadReads s e w',
         randString fuel src length maxBadReads (fst (getCharset opts w)) w
         = Some ((s, Some e), w') ->
         e <> ErrCharsetSize).
Proof.
  intros Hc.
  assert (Hsize : forall o v, CustomCharset o = [] ->
                              2 <= len (fst (getCharset o v)) <= 256).
  { intros o v Ho. pose proof (flag_charset_len o v Ho) as Hin.
    cbn [In] in Hin. lia. }
  assert (Herr : forall fuel src length m cs v s e w',
             2 <= len cs <= 256 ->
             randString fuel src length m cs v = Some ((s, Some e), w') ->
             e <> ErrNoValidChars /\ e <> ErrCharsetSize).
  { intros fuel src length m cs v s e w' Hcs H.
    apply randString_errors in H.
    destruct H as [(_ & Hout & _) | (_ & [-> | [msg ->]])];
      [lia | split; discriminate | split; discriminate]. }
  pose proof (Hsize opts w Hc) as Hs. split; [|split; [exact Hs|split]].
  - intros Hnil. rewrite Hnil, len_nil in Hs. lia.
  - intros fuel src s e w' H. rewrite Generate_unfold in H. cbv zeta in H.
    match type of H with
    | context [getCharset ?o ?v] =>
        assert (Hs' : 2 <= len (fst (getCharset o v)) <= 256)
          by (apply Hsize; destruct opts; exact Hc)
    end.
    match type of H with
    | context [len ?l =? 0] => destruct (Z.eqb_spec (len l) 0); [lia|]
    end.
    eapply Herr; [exact Hs' | exact H].
  - intros fuel src length m s e w' H.
    eapply Herr; [exact Hs | exact H].
Qed.

Lemma flag_charset_always_valid_witness :
  fst (getCharset (mkOptions 16 true true true [] 150) world0) <> []
  /\ 2 <= len (fst (getCharset (mkOptions 16 true true true [] 150) world0))
     <= 256.
Proof.
  destruct (flag_charset_always_valid (mkOptions 16 true true true [] 150)
              world0 eq_refl) as (Hne & Hsize & _).
  split; [exact Hne | exact Hsize].
Defined.

Lemma randString_stdout_irrelevant fuel src length maxBadReads charset w1 w2 :
  requests w1 = requests w2 ->
  observe (randString fuel src length maxBadReads charset w1)
  = observe (randString fuel src length maxBadReads charset w2).
Proof.
  intros Hrq. unfold randString.
  destruct (length =? 0); [cbn; now rewrite Hrq|].
  destruct ((len charset <? 2) || (len charset >? 256));
    [cbn; now rewrite Hrq|].
  now apply sample_loop_stdout_irrelevant.
Qed.

Lemma getCharset_custom opts w :
  CustomCharset opts <> [] ->
  getCharset opts w
  = (CustomCharset opts,
     if isURISafe (CustomCharset opts) then w
     else print (NotURISafe (CustomCharset opts)) w).
Proof.
  intros Hne. unfold getCharset.
  destruct (CustomCharset opts) as [|c cs]; [contradiction|].
  cbn [is_empty negb]. now destruct (isURISafe (c :: cs)).
Qed.

(** C7.  A non-empty custom alphabet is returned as it was given, byte
    for byte, whatever the exclusion flags; a character outside the
    URI-safe set only adds a warning to the output and changes nothing
    else.  When the alphabet has between 2 and 256 bytes, [Generate]
    returns what the sampler returns on this alphabet, after the same
    reads, and its only possible errors are the retry budget and a failure
    of the source. *)
Theorem custom_charset_verbatim opts w :
  CustomCharset opts <> [] ->
  fst (getCharset opts w) = CustomCharset opts
  /\ requests (snd (getCharset opts w)) = requests w
  /\ stdout (snd (getCharset opts w))
     = (if isURISafe (CustomCharset opts) then stdout w
        else NotURISafe (CustomCharset opts) :: stdout w)
  /\ (2 <= len (CustomCharset opts) <= 256 ->
      forall fuel src,
        observe (Generate fuel src opts w)
        = observe (randString fuel src (effective_length opts)
                              (effective_MaxBadReads opts)
                              (CustomCharset opts) w)
        /\ forall s e w',
            Generate fuel src opts w = Some ((s, Some e), w') ->
            e = ErrTooManyBadReads \/ exists msg, e = ErrSource msg).
Proof.
  intros Hne. rewrite (getCharset_custom opts w Hne). cbn [fst snd].
  split; [reflexivity|]. split; [|split].
  - now destruct (isURISafe (CustomCharset opts)).
  - now destruct (isURISafe (CustomCharset opts)).
  - intros Hsize fuel src.
    assert (Hgen : exists w1,
               requests w1 = requests w
               /\ Generate fuel src opts w
                  = randString fuel src (effective_length opts)
                               (effective_MaxBadReads opts)
                               (CustomCharset opts) w1).
    { rewrite Generate_unfold. cbv zeta.
      rewrite getCharset_custom by (destruct opts; exact Hne).
      cbn [fst snd]. replace (CustomCharset (with_MaxBadReads _ (with_Length _ opts)))
        with (CustomCharset opts) by (now destruct opts).
      destruct (Z.eqb_spec (len (CustomCharset opts)) 0); [lia|].
      eexists. split; [|reflexivity].
      destruct (isURISafe (CustomCharset opts)), (Length opts <=? 0);
        reflexivity. }
    destruct Hgen as (w1 & Hrq & Hgen). split.
    + rewrite Hgen. now apply randString_stdout_irrelevant.
    + intros s e w' H. rewrite Hgen in H. apply randString_errors in H.
      destruct H as [(_ & Hout & _) | (_ & H)]; [lia | exact H].
Qed.

Lemma custom_charset_verbatim_witness :
  isURISafe (bytes_of "abcABC123<>#") = false
  /\ getCharset opts_unsafe world0
     = (bytes_of "abcABC123<>#",
        mkWorld [] [NotURISafe (bytes_of "abcABC123<>#")])
  /\ observe (Generate 1 (const_source x0a) opts_unsafe world0)
     = Some ((bytes_of ">>>>>>>>>>>>>>>>", None), [MaxBuffLength]).
Proof.
  destruct (custom_charset_verbatim opts_unsafe world0) as (_ & _ & _ & Hgen).
  - discriminate.
  - split; [reflexivity|]. split; [reflexivity|].
    destruct (Hgen ltac:(vm_compute; split; discriminate) 1%nat
                (const_source x0a)) as [Hobs _].
    rewrite Hobs. vm_compute. reflexivity.
Defined.

(** ** [isURISafe], rune by rune and byte by byte *)

Example runes_of_text :
  runes (bytes_of "a~") = [97; 126]
  /\ runes [xc3; xa9] = [0xE9]
  /\ runes [xe2; x82; xac] = [0x20AC]
  /\ runes [xf0; x9f; x98; x80] = [0x1F600]
  /\ runes [xc3; x41] = [runeError; 65]
  /\ runes [xed; xa0; x80] = [runeError; runeError; runeError].
Proof. vm_compute. repeat split; reflexivity. Qed.

Lemma fold_set_true (l : list Z) :
  forall (m : rune_set) (k : Z),
    fold_left set_true l m k = existsb (Z.eqb k) l || m k.
Proof.
  induction l as [|c l IH]; intros m k; cbn [fold_left existsb].
  - reflexivity.
  - rewrite IH. unfold set_true.
    destruct (k =? c); cbn [orb]; [now rewrite orb_true_r | reflexivity].
Qed.

Lemma safeSet_mem (k : Z) :
  safeSet k = existsb (Z.eqb k) (map byte_val safeChars).
Proof.
  unfold safeSet. rewrite fold_set_true. unfold empty_set.
  rewrite orb_false_r. f_equal.
Qed.

(** The keys of [safeSet] are ASCII. *)
Lemma safeSet_ascii (k : Z) : safeSet k = true -> k < runeSelf.
Proof.
  rewrite safeSet_mem, existsb_exists. intros (c & Hin & Heq).
  apply Z.eqb_eq in Heq. subst k.
  assert (Hall : forallb (fun c => c <? runeSelf) (map byte_val safeChars)
                 = true) by (vm_compute; reflexivity).
  rewrite forallb_forall in Hall. apply Z.ltb_lt. now apply Hall.
Qed.

Lemma byte_val_inj (b c : byte) : byte_val b = byte_val c -> b = c.
Proof.
  unfold byte_val. intros H. apply N2Z.inj in H.
  pose proof (Byte.of_to_N b) as Hb. rewrite H, Byte.of_to_N in Hb.
  now inversion Hb.
Qed.

Lemma safeSet_byte (b : byte) : safeSet (byte_val b) = byte_in b safeChars.
Proof.
  rewrite safeSet_mem. unfold byte_in.
  induction safeChars as [|c l IH]; [reflexivity|].
  cbn [map existsb]. rewrite IH. f_equal.
  destruct (Byte.eqb b c) eqn:E.
  - apply Byte.byte_dec_bl in E. subst. apply Z.eqb_refl.
  - apply Z.eqb_neq. intros Hv. apply Byte.eqb_false in E. apply E.
    now apply byte_val_inj.
Qed.

(** What [decoderune] returns is never an ASCII rune. *)
Lemma decoderune_not_ascii (s : list byte) :
  runeSelf <= fst (decoderune s).
Proof.
  unfold decoderune, runeSelf, runeError, rune1Max, rune2Max, rune3Max.
  repeat match goal with
         | |- context [match ?l with [] => _ | _ :: _ => _ end] =>
             destruct l
         | |- context [if ?c then _ else _] => destruct c eqn:?
         end; cbn [fst]; lia.
Qed.

Lemma range_runes_safe (fuel : nat) :
  forall s,
    (List.length s <= fuel)%nat ->
    forallb safeSet (range_runes fuel s)
    = forallb (fun c => byte_in c safeChars) s.
Proof.
  induction fuel as [|fuel IH]; intros s Hlen.
  - destruct s; [reflexivity | cbn [List.length] in Hlen; lia].
  - destruct s as [|s0 rest]; [reflexivity|].
    cbn [range_runes forallb List.length] in *.
    destruct (Z.ltb_spec (byte_val s0) runeSelf) as [Hascii|Hhigh].
    + cbn [forallb]. rewrite safeSet_byte, IH by lia. reflexivity.
    + pose proof (decoderune_not_ascii (s0 :: rest)) as Hr.
      destruct (decoderune (s0 :: rest)) as [r width]. cbn [fst] in Hr.
      cbn [forallb].
      replace (safeSet r) with false.
      * replace (byte_in s0 safeChars) with false; [reflexivity|].
        symmetry. apply not_true_is_false. intros Hin.
        rewrite <- safeSet_byte in Hin. apply safeSet_ascii in Hin. lia.
      * symmetry. apply not_true_is_false. intros Hin.
        apply safeSet_ascii in Hin. lia.
Qed.

(** X12.  [isURISafe], computed as the source does (a set of runes built
    from [safeChars], then a loop over the runes of the string), answers
    true exactly when every byte of the string is one of the bytes of
    [safeChars]; a string with a byte of value 0x80 or more is never
    URI-safe. *)
Theorem isURISafe_range_bytes (s : list byte) :
  isURISafe_range s = isURISafe s
  /\ (isURISafe_range s = true <-> forall c, In c s -> In c safeChars)
  /\ ((exists c, In c s /\ runeSelf <= byte_val c) ->
      isURISafe_range s = false).
Proof.
  assert (Heq : isURISafe_range s = isURISafe s).
  { unfold isURISafe_range, isURISafe, runes. now apply range_runes_safe. }
  split; [exact Heq|]. split.
  - rewrite Heq. unfold isURISafe. rewrite forallb_forall. split.
    + intros H c Hin. now apply byte_in_In, H.
    + intros H c Hin. now apply byte_in_In, H.
  - intros (c & Hin & Hhigh). rewrite Heq. apply not_true_is_false.
    unfold isURISafe. rewrite forallb_forall. intros H.
    specialize (H c Hin). rewrite <- safeSet_byte in H.
    apply safeSet_ascii in H. lia.
Qed.

Lemma isURISafe_range_bytes_witness :
  isURISafe_range [xc3; xa9] = false.
Proof.
  apply (proj2 (proj2 (isURISafe_range_bytes [xc3; xa9]))).
  exists xc3. split; [left; reflexivity | vm_compute; discriminate].
Defined.

(** ** The sampler, read by read *)

Lemma rand_Read_eq src w :
  rand_Read src MaxBuffLength w
  = (match src (List.length (requests w)) with
     | ReadOk _ => ReadOk (read_bytes src (List.length (requests w)))
     | ReadErr e => ReadErr e
     end,
     mkWorld (MaxBuffLength :: requests w) (stdout w)).
Proof.
  unfold rand_Read, read_bytes.
  now destruct (src (List.length (requests w))).
Qed.

Lemma read_bytes_len src k : len (read_bytes src k) <= 2048.
Proof.
  unfold read_bytes, len. destruct (src k) as [data|e].
  - rewrite length_firstn. unfold MaxBuffLength. lia.
  - cbn. lia.
Qed.

Lemma bytes_read_S src start n :
  bytes_read src start (S n)
  = read_bytes src start ++ bytes_read src (S start) n.
Proof. reflexivity. Qed.

Lemma repeat_snoc {A : Type} (x : A) (n : nat) (l : list A) :
  repeat x n ++ x :: l = repeat x (S n) ++ l.
Proof.
  induction n as [|n IH]; [reflexivity|].
  cbn [repeat app] in *. now rewrite IH.
Qed.

Lemma sampled_nil (length : Z) (charset : list byte) :
  sampled length charset [] = [].
Proof. unfold sampled. cbn [filter map]. apply firstn_nil. Qed.

(** One more buffer extends the sampled string. *)
Lemma fill_sampled (length : Z) (charset pre buf : list byte) :
  fill length charset (len charset) (maxByte_of (len charset)) buf
       (sampled length charset pre)
  = sampled length charset (pre ++ buf).
Proof.
  rewrite fill_spec. unfold sampled.
  rewrite filter_app, map_app, firstn_app. f_equal. f_equal.
  unfold len. rewrite length_firstn. lia.
Qed.

Lemma sample_loop_sampled src length maxBadReads charset :
  forall fuel pre badReads w s w',
    sample_loop fuel src length maxBadReads charset (len charset)
                (maxByte_of (len charset)) (sampled length charset pre)
                badReads w = Some ((s, None), w') ->
    exists k,
      requests w' = repeat MaxBuffLength k ++ requests w
      /\ s = sampled length charset
                     (pre ++ bytes_read src (List.length (requests w)) k).
Proof.
  induction fuel as [|fuel IH]; intros pre badReads w s w' H;
    cbn [sample_loop] in H.
  - destruct (len _ <? length); [discriminate|]. inversion H; subst.
    exists O. now rewrite app_nil_r.
  - destruct (len _ <? length).
    + rewrite rand_Read_eq in H.
      destruct (src (List.length (requests w))) as [data|e] eqn:Hsrc;
        [|discriminate].
      destruct (wrap_int (badReads + 1) >? maxBadReads); [discriminate|].
      rewrite fill_sampled in H. apply IH in H.
      destruct H as (k & Hrq & Hs). cbn [requests List.length] in *.
      exists (S k). rewrite bytes_read_S, app_assoc.
      split; [now rewrite <- repeat_snoc | exact Hs].
    + inversion H; subst. exists O. now rewrite app_nil_r.
Qed.

(** X1.  When the sampler returns a string, that string is made of the
    random bytes it read, and of nothing else: the accepted bytes of the
    buffers, in the order they were read, each replaced by
    [charset[b % len(charset)]], cut at the requested length. *)
Theorem randString_output fuel src length maxBadReads charset w s w' :
  randString fuel src length maxBadReads charset w = Some ((s, None), w') ->
  exists k,
    requests w' = repeat MaxBuffLength k ++ requests w
    /\ s = sampled length charset
                   (bytes_read src (List.length (requests w)) k).
Proof.
  intros H. unfold randString in H.
  destruct (Z.eqb_spec length 0) as [->|Hnz].
  - inversion H; subst. exists O. split; reflexivity.
  - destruct ((len charset <? 2) || (len charset >? 256)); [discriminate|].
    rewrite <- (sampled_nil length charset) in H at 1.
    apply sample_loop_sampled in H. exact H.
Qed.

Lemma randString_output_witness :
  randString 2 late_source 3 5 (bytes_of "abc") world0
  = Some ((bytes_of "aaa", None), mkWorld [MaxBuffLength; MaxBuffLength] [])
  /\ exists k,
      [MaxBuffLength; MaxBuffLength] = repeat MaxBuffLength k ++ []
      /\ bytes_of "aaa"
         = sampled 3 (bytes_of "abc") (bytes_read late_source 0 k).
Proof.
  assert (H : randString 2 late_source 3 5 (bytes_of "abc") world0
              = Some ((bytes_of "aaa", None),
                      mkWorld [MaxBuffLength; MaxBuffLength] []))
    by (vm_compute; reflexivity).
  split; [exact H|]. exact (randString_output _ _ _ _ _ _ _ _ H).
Defined.

(** *** What a string costs *)

Lemma sample_loop_ok_cost src length maxBadReads charset charsetLen maxByte :
  maxBadReads < max_int ->
  forall fuel output badReads w s w',
    0 <= badReads < max_int ->
    sample_loop fuel src length maxBadReads charset charsetLen maxByte
                output badReads w = Some ((s, None), w') ->
    (reads_between w w' = 0
     \/ badReads + reads_between w w' <= maxBadReads)
    /\ len s <= len output + 2048 * reads_between w w'.
Proof.
  intros Hm. induction fuel as [|fuel IH];
    intros output badReads w s w' Hb H; cbn [sample_loop] in H.
  - destruct (len output <? length); [discriminate|]. inversion H; subst.
    rewrite reads_between_refl. lia.
  - destruct (len output <? length).
    + rewrite rand_Read_eq in H.
      destruct (src (List.length (requests w))) as [data|e]; [|discriminate].
      rewrite wrap_int_small in H by (unfold min_int, max_int in *; lia).
      destruct (Z.gtb_spec (badReads + 1) maxBadReads); [discriminate|].
      apply IH in H; [|lia]. destruct H as [Hreads Hlen].
      rewrite (reads_between_read w MaxBuffLength (stdout w)).
      match type of Hlen with
      | _ <= len (fill ?l ?c ?n ?m ?b ?o) + _ =>
          pose proof (fill_len_buf l c n m b o) as Hfill
      end.
      pose proof (read_bytes_len src (List.length (requests w))). lia.
    + inversion H; subst. rewrite reads_between_refl. lia.
Qed.

(** X2.  A string of [length > 0] characters costs at least one read and at
    most [maxBadReads] reads, and no read contributes more than 2048
    characters: the sampler cannot return more than
    [2048 * maxBadReads] characters. *)
Theorem randString_ok_cost fuel src length maxBadReads charset w s w' :
  maxBadReads < max_int ->
  0 < length ->
  randString fuel src length maxBadReads charset w = Some ((s, None), w') ->
  1 <= reads_between w w' <= maxBadReads
  /\ length <= 2048 * reads_between w w'
  /\ length <= 2048 * maxBadReads.
Proof.
  intros Hm Hpos H.
  pose proof (randString_ok_reads _ _ _ _ _ _ _ _ Hpos H) as Hone.
  assert (Hlen : len s = length)
    by (eapply randString_ok_len; [|exact H]; lia).
  unfold randString in H.
  destruct (Z.eqb_spec length 0); [lia|].
  destruct ((len charset <? 2) || (len charset >? 256)); [discriminate|].
  apply sample_loop_ok_cost in H; [|assumption | unfold max_int; lia].
  pose proof (@len_nil byte) as Hnil. lia.
Qed.

Lemma randString_ok_cost_witness :
  randString 2 late_source 3 5 (bytes_of "abc") world0
  = Some ((bytes_of "aaa", None), mkWorld [MaxBuffLength; MaxBuffLength] [])
  /\ 1 <= reads_between world0 (mkWorld [MaxBuffLength; MaxBuffLength] []) <= 5.
Proof.
  assert (H : randString 2 late_source 3 5 (bytes_of "abc") world0
              = Some ((bytes_of "aaa", None),
                      mkWorld [MaxBuffLength; MaxBuffLength] []))
    by (vm_compute; reflexivity).
  split; [exact H|].
  refine (proj1 (randString_ok_cost _ _ _ _ _ _ _ _ _ _ H));
    [unfold max_int; lia | lia].
Defined.

(** *** A failing source *)

Lemma sample_loop_source_error src length maxBadReads charset charsetLen maxByte :
  forall fuel output badReads w s msg w',
    sample_loop fuel src length maxBadReads charset charsetLen maxByte
                output badReads w = Some ((s, Some (ErrSource msg)), w') ->
    exists rest,
      requests w' = MaxBuffLength :: rest
      /\ src (List.length rest) = ReadErr msg.
Proof.
  induction fuel as [|fuel IH]; intros output badReads w s msg w' H;
    cbn [sample_loop] in H.
  - destruct (len output <? length); discriminate.
  - destruct (len output <? length); [|discriminate].
    rewrite rand_Read_eq in H.
    destruct (src (List.length (requests w))) as [data|e] eqn:Hsrc.
    + destruct (wrap_int (badReads + 1) >? maxBadReads); [discriminate|].
      eapply IH; exact H.
    + inversion H; subst. exists (requests w). split; [reflexivity|exact Hsrc].
Qed.

(** X3.  A failure of [rand.Read] is handed back as it is and ends the
    call: when the sampler returns an error of the source, that error is
    the answer to the last read it made; and when the first read fails the
    sampler returns its error after that one read, without a retry. *)
Theorem randString_source_error src length maxBadReads charset w :
  (forall fuel s msg w',
      randString fuel src length maxBadReads charset w
      = Some ((s, Some (ErrSource msg)), w') ->
      exists rest,
        requests w' = MaxBuffLength :: rest
        /\ src (List.length rest) = ReadErr msg)
  /\ (forall fuel msg,
         0 < length ->
         2 <= len charset <= 256 ->
         src (List.length (requests w)) = ReadErr msg ->
         randString (S fuel) src length maxBadReads charset w
         = Some (([], Some (ErrSource msg)),
                 mkWorld (MaxBuffLength :: requests w) (stdout w))).
Proof.
  split.
  - intros fuel s msg w' H. unfold randString in H.
    destruct (length =? 0); [discriminate|].
    destruct ((len charset <? 2) || (len charset >? 256)); [discriminate|].
    eapply sample_loop_source_error; exact H.
  - intros fuel msg Hpos Hsize Hsrc. unfold randString.
    destruct (Z.eqb_spec length 0); [lia|].
    destruct (Z.ltb_spec (len charset) 2); [lia|].
    destruct (Z.gtb_spec (len charset) 256); [lia|]. cbn [orb sample_loop].
    rewrite len_nil. destruct (Z.ltb_spec 0 length); [|lia].
    rewrite rand_Read_eq, Hsrc. reflexivity.
Qed.

Lemma randString_source_error_witness :
  randString 1 failing_source 16 150 Alphanumeric world0
  = Some (([], Some (ErrSource "entropy source failed")),
          mkWorld [MaxBuffLength] []).
Proof.
  apply (proj2 (randString_source_error failing_source 16 150 Alphanumeric
                  world0) 0%nat "entropy source failed"%string).
  - lia.
  - vm_compute. split; discriminate.
  - reflexivity.
Defined.

(** *** A first buffer with enough accepted bytes *)

(** X4.  With a budget of at least one read, a first buffer that holds at
    least [length] accepted bytes is enough: the sampler returns the string
    drawn from that buffer after one read. *)
Theorem randString_first_read_suffices fuel src length maxBadReads charset w :
  0 < length ->
  2 <= len charset <= 256 ->
  1 <= maxBadReads ->
  (exists data, src (List.length (requests w)) = ReadOk data) ->
  length <= len (filter (accept (maxByte_of (len charset)))
                        (read_bytes src (List.length (requests w)))) ->
  randString (S fuel) src length maxBadReads charset w
  = Some ((sampled length charset (read_bytes src (List.length (requests w))),
           None),
          mkWorld (MaxBuffLength :: requests w) (stdout w)).
Proof.
  intros Hpos Hsize Hm [data Hsrc] Hacc. unfold randString.
  destruct (Z.eqb_spec length 0); [lia|].
  destruct (Z.ltb_spec (len charset) 2); [lia|].
  destruct (Z.gtb_spec (len charset) 256); [lia|]. cbn [orb sample_loop].
  rewrite len_nil. destruct (Z.ltb_spec 0 length); [|lia].
  rewrite rand_Read_eq, Hsrc.
  change (wrap_int (0 + 1)) with 1.
  destruct (Z.gtb_spec 1 maxBadReads); [lia|].
  rewrite <- (sampled_nil length charset) at 1. rewrite fill_sampled.
  cbn [app].
  assert (Hfull : len (sampled length charset
                         (read_bytes src (List.length (requests w))))
                  = length).
  { unfold sampled, len in *. rewrite length_firstn, length_map. lia. }
  destruct fuel; cbn [sample_loop]; rewrite Hfull, Z.ltb_irrefl; reflexivity.
Qed.

Lemma randString_first_read_suffices_witness :
  randString 1 (const_source x2a) 4 1 (bytes_of "abc") world0
  = Some ((bytes_of "aaaa", None), mkWorld [MaxBuffLength] []).
Proof.
  apply (randString_first_read_suffices 0 (const_source x2a) 4 1
           (bytes_of "abc") world0).
  - lia.
  - vm_compute. split; discriminate.
  - lia.
  - now eexists.
  - vm_compute. discriminate.
Defined.

(** ** The share of each character *)

Lemma distinct_NoDup (l : list byte) : distinct l = true -> NoDup l.
Proof.
  induction l as [|c rest IH]; cbn [distinct]; intros H; constructor.
  - apply andb_true_iff in H. destruct H as [Hc _].
    intros Hin. apply byte_in_In in Hin. rewrite Hin in Hc. discriminate.
  - apply IH. apply andb_true_iff in H. apply H.
Qed.

(** In an alphabet without repetition a character is picked through one
    index only. *)
Lemma pick_eqb_index (charset : list byte) (j : nat) (b : byte) :
  NoDup charset ->
  0 < len charset ->
  (j < List.length charset)%nat ->
  Byte.eqb (pick charset (len charset) b) (nth j charset x00)
  = (Z.rem (byte_val b) (len charset) =? Z.of_nat j).
Proof.
  intros Hnd Hn Hj. unfold pick.
  pose proof (pick_index_in_range charset b Hn) as Hi.
  pose proof (byte_val_range b) as Hb.
  assert (Hrem : 0 <= Z.rem (byte_val b) (len charset))
    by (apply Z.rem_nonneg; lia).
  destruct (Z.eqb_spec (Z.rem (byte_val b) (len charset)) (Z.of_nat j))
    as [Heq|Hne].
  - rewrite Heq, Nat2Z.id. now apply Byte.byte_dec_lb.
  - destruct (Byte.eqb _ _) eqn:E; [|reflexivity].
    apply Byte.byte_dec_bl in E.
    apply (proj1 (NoDup_nth charset x00) Hnd) in E; [lia | exact Hi | exact Hj].
Qed.

(** X5.  For an alphabet of valid size in which no character is repeated,
    every character of the alphabet is produced by exactly
    [256 / len(charset)] of the 256 byte values, and a character that is not
    in the alphabet by none. *)
Theorem char_preimage_len (charset : list byte) (c : byte) :
  NoDup charset ->
  2 <= len charset <= 256 ->
  (In c charset -> len (char_preimage charset c) = 256 / len charset)
  /\ (~ In c charset -> char_preimage charset c = []).
Proof.
  intros Hnd Hsize. split.
  - intros Hin. destruct (In_nth charset c x00 Hin) as (j & Hj & Hnth).
    rewrite <- (preimage_len (len charset) (Z.of_nat j) Hsize)
      by (unfold len; lia).
    unfold char_preimage, preimage. f_equal. apply filter_ext. intros b.
    rewrite <- Hnth, pick_eqb_index by (assumption || lia). reflexivity.
  - intros Hout. unfold char_preimage.
    induction all_bytes as [|b l IH]; [reflexivity|]. cbn [filter].
    destruct (Byte.eqb (pick charset (len charset) b) c) eqn:E.
    + apply Byte.byte_dec_bl in E. exfalso. apply Hout. rewrite <- E.
      apply pick_In. lia.
    + rewrite andb_false_r. exact IH.
Qed.

Lemma char_preimage_len_witness :
  len (char_preimage (bytes_of "abc") "b"%byte) = 85
  /\ char_preimage (bytes_of "abc") "z"%byte = [].
Proof.
  destruct (char_preimage_len (bytes_of "abc") "b"%byte) as [Hin _].
  - apply distinct_NoDup. reflexivity.
  - vm_compute. split; discriminate.
  - destruct (char_preimage_len (bytes_of "abc") "z"%byte) as [_ Hout].
    + apply distinct_NoDup. reflexivity.
    + vm_compute. split; discriminate.
    + split.
      * apply Hin. right. left. reflexivity.
      * apply Hout. intros Hz. apply byte_in_In in Hz. discriminate.
Defined.

Lemma flag_charset_URISafe opts w :
  CustomCharset opts = [] ->
  isURISafe (fst (getCharset opts w)) = true.
Proof.
  intros Hc. rewrite (getCharset_flags opts w Hc). cbn [fst].
  destruct (ExcludeNumeric opts), (ExcludeLowercase opts),
    (ExcludeUppercase opts); vm_compute; reflexivity.
Qed.

(** X6.  The alphabet resolved from the three flags never repeats a
    character and is URI-safe, whatever the flags. *)
Theorem flag_charset_distinct_safe opts w :
  CustomCharset opts = [] ->
  NoDup (fst (getCharset opts w))
  /\ isURISafe (fst (getCharset opts w)) = true.
Proof.
  intros Hc. rewrite (getCharset_flags opts w Hc). cbn [fst].
  destruct (ExcludeNumeric opts), (ExcludeLowercase opts),
    (ExcludeUppercase opts);
    (split; [apply distinct_NoDup|]; vm_compute; reflexivity).
Qed.

Lemma flag_charset_distinct_safe_witness :
  NoDup (fst (getCharset NewOpts world0))
  /\ isURISafe (fst (getCharset NewOpts world0)) = true.
Proof. exact (flag_charset_distinct_safe NewOpts world0 eq_refl). Defined.

(** ** [Generate] as a whole *)

Lemma getCharset_fst_effective opts l m w w1 :
  fst (getCharset (with_MaxBadReads m (with_Length l opts)) w1)
  = fst (getCharset opts w).
Proof.
  unfold getCharset, with_MaxBadReads, with_Length.
  cbn [CustomCharset ExcludeNumeric ExcludeLowercase ExcludeUppercase].
  now destruct (negb (is_empty (CustomCharset opts))).
Qed.

Lemma getCharset_nonempty opts w : fst (getCharset opts w) <> [].
Proof.
  destruct (CustomCharset opts) as [|c cs] eqn:Hc.
  - rewrite (getCharset_flags opts w Hc). cbn [fst].
    destruct (ExcludeNumeric opts), (ExcludeLowercase opts),
      (ExcludeUppercase opts); discriminate.
  - rewrite getCharset_custom by (rewrite Hc; discriminate).
    cbn [fst]. rewrite Hc. discriminate.
Qed.

Lemma getCharset_world opts w :
  snd (getCharset opts w)
  = mkWorld (requests w)
            ((if negb (is_empty (CustomCharset opts))
                 && negb (isURISafe (CustomCharset opts))
              then [NotURISafe (CustomCharset opts)] else [])
             ++ stdout w).
Proof.
  unfold getCharset. destruct w as [rq out].
  destruct (negb (is_empty (CustomCharset opts))); cbn [andb snd].
  - now destruct (negb (isURISafe (CustomCharset opts))).
  - reflexivity.
Qed.

(** [Generate] is the sampler, run on the resolved alphabet with the
    effective length and budget, after the notices were printed; its
    "no valid chars" branch is never taken. *)
Lemma Generate_runs fuel src opts w :
  Generate fuel src opts w
  = randString fuel src (effective_length opts) (effective_MaxBadReads opts)
               (fst (getCharset opts w))
               (mkWorld (requests w) (printed opts ++ stdout w)).
Proof.
  rewrite Generate_unfold. cbv zeta.
  rewrite (getCharset_fst_effective opts _ _ w).
  pose proof (getCharset_nonempty opts w) as Hne.
  destruct (Z.eqb_spec (len (fst (getCharset opts w))) 0) as [Hz|_].
  { destruct (fst (getCharset opts w)); [contradiction | discriminate]. }
  f_equal. rewrite getCharset_world. unfold printed.
  replace (CustomCharset (with_MaxBadReads _ (with_Length _ opts)))
    with (CustomCharset opts) by (now destruct opts).
  destruct (Length opts <=? 0); cbn [print requests stdout];
    now rewrite <- app_assoc.
Qed.

(** X7.  Every character of what [Generate] returns is a character of the
    alphabet resolved from the configuration. *)
Theorem Generate_in_charset fuel src opts w s e w' :
  Generate fuel src opts w = Some ((s, e), w') ->
  forall c, In c s -> In c (fst (getCharset opts w)).
Proof.
  rewrite Generate_runs. intros H c Hin.
  apply randString_in_charset in H. rewrite Forall_forall in H. now apply H.
Qed.

Lemma Generate_in_charset_witness :
  In "b"%byte (fst (getCharset
                      (mkOptions 3 false false false (bytes_of "abc123") 150)
                      world0)).
Proof.
  apply (Generate_in_charset 1 (const_source x01)
           (mkOptions 3 false false false (bytes_of "abc123") 150) world0
           (bytes_of "bbb") None (mkWorld [MaxBuffLength] [])).
  - vm_compute. reflexivity.
  - left. reflexivity.
Defined.

(** X8.  Without a custom alphabet, or with a custom alphabet that is
    URI-safe, whatever [Generate] returns is URI-safe, and no warning is
    printed. *)
Theorem Generate_output_URISafe fuel src opts w s e w' :
  CustomCharset opts = [] \/ isURISafe (CustomCharset opts) = true ->
  Generate fuel src opts w = Some ((s, e), w') ->
  isURISafe s = true
  /\ ~ In (NotURISafe (CustomCharset opts)) (printed opts).
Proof.
  intros Hsafe H.
  assert (Hcs : isURISafe (fst (getCharset opts w)) = true).
  { destruct (CustomCharset opts) as [|c cs] eqn:Hc.
    - now apply flag_charset_URISafe.
    - rewrite getCharset_custom by (rewrite Hc; discriminate).
      cbn [fst]. rewrite Hc. destruct Hsafe as [Hs|Hs];
        [discriminate | exact Hs]. }
  split.
  - rewrite Generate_runs in H. apply randString_in_charset in H.
    unfold isURISafe in *. rewrite forallb_forall in *.
    rewrite Forall_forall in H. intros c Hin. apply Hcs, H, Hin.
  - unfold printed. intros Hin. apply in_app_or in Hin.
    destruct Hin as [Hin|Hin].
    + destruct Hsafe as [Hs|Hs]; rewrite Hs in Hin;
        cbn [is_empty negb andb] in Hin;
        rewrite ?andb_false_r in Hin; exact Hin.
    + destruct (Length opts <=? 0); [|exact Hin].
      destruct Hin as [Hin|[]]. discriminate.
Qed.

Lemma Generate_output_URISafe_witness :
  isURISafe (bytes_of "~~~") = true.
Proof.
  apply (Generate_output_URISafe 1 (const_source x00)
           (mkOptions 3 true true true (bytes_of "~_.") 0) world0
           (bytes_of "~~~") None (mkWorld [MaxBuffLength] [])).
  - right. reflexivity.
  - vm_compute. reflexivity.
Defined.

Lemma disjoint_by_computation (l1 l2 : list byte) :
  forallb (fun c => negb (byte_in c l2)) l1 = true ->
  forall c, In c l1 -> ~ In c l2.
Proof.
  intros H c Hin Hin2. rewrite forallb_forall in H.
  specialize (H c Hin). apply byte_in_In in Hin2.
  rewrite Hin2 in H. discriminate.
Qed.

(** X9.  Without a custom alphabet and unless the three classes are all
    excluded, a class whose flag is set gives no character to the result:
    no digit with [ExcludeNumeric], no lowercase letter with
    [ExcludeLowercase], no uppercase letter with [ExcludeUppercase]. *)
Theorem Generate_excluded_classes fuel src opts w s e w' :
  CustomCharset opts = [] ->
  ExcludeNumeric opts && ExcludeLowercase opts && ExcludeUppercase opts
  = false ->
  Generate fuel src opts w = Some ((s, e), w') ->
  forall c, In c s ->
    (ExcludeNumeric opts = true -> ~ In c Numeric)
    /\ (ExcludeLowercase opts = true -> ~ In c Lowercase)
    /\ (ExcludeUppercase opts = true -> ~ In c Uppercase).
Proof.
  intros Hc Hsome H c Hin.
  rewrite Generate_runs in H. apply randString_in_charset in H.
  rewrite Forall_forall in H. specialize (H c Hin).
  rewrite (getCharset_flags opts w Hc) in H. cbn [fst] in H.
  destruct (ExcludeNumeric opts), (ExcludeLowercase opts),
    (ExcludeUppercase opts); cbn [andb] in *; try discriminate;
    repeat split; intros Hflag; try discriminate;
    clear Hin; revert c H; apply disjoint_by_computation;
    vm_compute; reflexivity.
Qed.

Lemma Generate_excluded_classes_witness :
  ~ In "A"%byte Numeric /\ ~ In "A"%byte Lowercase.
Proof.
  destruct (Generate_excluded_classes 1 (const_source x00)
              (mkOptions 2 true true false [] 150) world0
              (bytes_of "AA") None (mkWorld [MaxBuffLength] [])
              eq_refl eq_refl) with (c := "A"%byte) as (Hn & Hl & _).
  - vm_compute. reflexivity.
  - left. reflexivity.
  - split; [apply Hn | apply Hl]; reflexivity.
Defined.

(** X10.  What a call of [Generate] prints depends on the configuration
    alone: the notice about the length exactly when [Length <= 0], then the
    warning about the alphabet exactly when a custom alphabet is given and
    is not URI-safe; nothing is printed for [MaxBadReads], by the sampler,
    or on an error. *)
Theorem Generate_stdout fuel src opts w r w' :
  Generate fuel src opts w = Some (r, w') ->
  stdout w' = printed opts ++ stdout w.
Proof.
  rewrite Generate_runs. intros H.
  apply randString_world in H. destruct H as [Hout _]. exact Hout.
Qed.

Lemma Generate_stdout_witness :
  stdout (mkWorld [MaxBuffLength]
                  [NotURISafe (bytes_of "<>"); InvalidLength (-1) 16])
  = printed (mkOptions (-1) false false false (bytes_of "<>") (-7))
            ++ stdout world0.
Proof.
  apply (Generate_stdout 1 (const_source x00)
           (mkOptions (-1) false false false (bytes_of "<>") (-7)) world0
           (bytes_of "<<<<<<<<<<<<<<<<", None)).
  vm_compute. reflexivity.
Defined.

(** X11.  [Generate] always returns: for every configuration whose
    [MaxBadReads] is below the largest [int] and every source, it hands back
    a string or an error after at most [MaxBadReads + 1] reads (151 when
    [MaxBadReads <= 0]), each of 2048 bytes. *)
Theorem Generate_terminates src opts w :
  MaxBadReads opts < max_int ->
  exists r w',
    Generate (S (Z.to_nat (effective_MaxBadReads opts))) src opts w
    = Some (r, w')
    /\ reads_between w w' <= effective_MaxBadReads opts + 1
    /\ exists k, requests w' = repeat 2048%nat k ++ requests w.
Proof.
  intros Hm. rewrite Generate_runs.
  assert (Heff : 1 <= effective_MaxBadReads opts < max_int).
  { unfold effective_MaxBadReads, DefaultMaxBadReads, max_int in *.
    destruct (Z.leb_spec (MaxBadReads opts) 0); lia. }
  set (w0 := mkWorld (requests w) (printed opts ++ stdout w)).
  assert (Hrun : exists r w',
             randString (S (Z.to_nat (effective_MaxBadReads opts))) src
                        (effective_length opts) (effective_MaxBadReads opts)
                        (fst (getCharset opts w)) w0 = Some (r, w')
             /\ reads_between w0 w' <= effective_MaxBadReads opts + 1).
  { unfold randString.
    destruct (effective_length opts =? 0).
    { do 2 eexists. split; [reflexivity|]. rewrite reads_between_refl. lia. }
    destruct ((_ <? 2) || (_ >? 256)).
    { do 2 eexists. split; [reflexivity|]. rewrite reads_between_refl. lia. }
    destruct (sample_loop_terminates src (effective_length opts)
                (effective_MaxBadReads opts) (fst (getCharset opts w))
                (len (fst (getCharset opts w)))
                (maxByte_of (len (fst (getCharset opts w))))
                (Z.to_nat (effective_MaxBadReads opts)) [] 0 w0)
      as (r & w' & Hrun & Hreads); try lia.
    exists r, w'. split; [exact Hrun | lia]. }
  destruct Hrun as (r & w' & Hrun & Hreads).
  exists r, w'. split; [exact Hrun|]. split; [exact Hreads|].
  apply randString_world in Hrun. apply Hrun.
Qed.

Lemma Generate_terminates_witness :
  exists r w',
    Generate 2 stuck_source
             (mkOptions 4 false false false (bytes_of "abc") 1) world0
    = Some (r, w')
    /\ reads_between world0 w' <= 2.
Proof.
  destruct (Generate_terminates stuck_source
              (mkOptions 4 false false false (bytes_of "abc") 1) world0)
    as (r & w' & Hrun & Hreads & _).
  - unfold max_int. cbn [MaxBadReads]. lia.
  - exists r, w'. split; [exact Hrun | exact Hreads].
Defined.

(** X14.  A custom alphabet of one byte, or of more than 256 bytes, makes
    [Generate] return "charset size 2-256" with the empty string for every
    [Length] and every budget, before any entropy is read. *)
Theorem Generate_custom_size_error fuel src opts w :
  len (CustomCharset opts) = 1 \/ 256 < len (CustomCharset opts) ->
  exists w',
    Generate fuel src opts w = Some (([], Some ErrCharsetSize), w')
    /\ requests w' = requests w.
Proof.
  intros Hsize. rewrite Generate_runs.
  assert (Hne : CustomCharset opts <> []).
  { intros Hnil. rewrite Hnil, len_nil in Hsize. lia. }
  rewrite (getCharset_custom opts w Hne). cbn [fst]. unfold randString.
  pose proof (effective_length_pos opts).
  destruct (Z.eqb_spec (effective_length opts) 0); [lia|].
  exists (mkWorld (requests w) (printed opts ++ stdout w)).
  split; [|reflexivity].
  destruct (Z.ltb_spec (len (CustomCharset opts)) 2); [reflexivity|].
  destruct (Z.gtb_spec (len (CustomCharset opts)) 256); [reflexivity | lia].
Qed.

Lemma Generate_custom_size_error_witness :
  exists w',
    Generate 0 failing_source
             (mkOptions 0 false false false (bytes_of "a") 150) world0
    = Some (([], Some ErrCharsetSize), w')
    /\ requests w' = requests world0.
Proof.
  apply (Generate_custom_size_error 0 failing_source
           (mkOptions 0 false false false (bytes_of "a") 150) world0).
  left. reflexivity.
Defined.

(** X15.  The alphabet resolved from a configuration is never empty, so
    [Generate] never returns "no valid chars": its errors are the size of
    the alphabet, the retry budget and a failure of the source. *)
Theorem Generate_errors fuel src opts w s e w' :
  Generate fuel src opts w = Some ((s, Some e), w') ->
  fst (getCharset opts w) <> []
  /\ e <> ErrNoValidChars
  /\ (e = ErrCharsetSize \/ e = ErrTooManyBadReads
      \/ exists msg, e = ErrSource msg).
Proof.
  rewrite Generate_runs. intros H.
  split; [apply getCharset_nonempty|].
  apply randString_errors in H.
  destruct H as [(-> & _) | (_ & [-> | [msg ->]])];
    (split; [discriminate|]); eauto.
Qed.

Lemma Generate_errors_witness :
  fst (getCharset (mkOptions 16 true true true [] 150) world0) <> []
  /\ ErrSource "entropy source failed" <> ErrNoValidChars.
Proof.
  destruct (Generate_errors 1 failing_source
              (mkOptions 16 true true true [] 150) world0 []
              (ErrSource "entropy source failed") (mkWorld [MaxBuffLength] []))
    as (Hne & He & _).
  - vm_compute. reflexivity.
  - split; [exact Hne | exact He].
Defined.

Lemma effective_MaxBadReads_pos opts : 0 < effective_MaxBadReads opts.
Proof.
  unfold effective_MaxBadReads, DefaultMaxBadReads.
  destruct (Z.leb_spec (MaxBadReads opts) 0); lia.
Qed.

(** X13.  The defaults are substituted once and for all: a configuration
    and the same configuration with [Length] and [MaxBadReads] replaced by
    their effective values (16 and 150 where they were zero or negative)
    give the same result after the same reads; in particular the zero
    value [Options{}] gives what [NewOpts()] gives. *)
Theorem Generate_defaults fuel src opts w :
  observe (Generate fuel src opts w)
  = observe (Generate fuel src
               (with_MaxBadReads (effective_MaxBadReads opts)
                  (with_Length (effective_length opts) opts)) w)
  /\ observe (Generate fuel src (mkOptions 0 false false false [] 0) w)
     = observe (Generate fuel src NewOpts w).
Proof.
  assert (Hgen : forall o,
             observe (Generate fuel src o w)
             = observe (Generate fuel src
                          (with_MaxBadReads (effective_MaxBadReads o)
                             (with_Length (effective_length o) o)) w)).
  { intros o. rewrite !Generate_runs.
    rewrite (getCharset_fst_effective o (effective_length o)
               (effective_MaxBadReads o) w w).
    pose proof (effective_length_pos o) as Hl.
    pose proof (effective_MaxBadReads_pos o) as Hm.
    set (o' := with_MaxBadReads (effective_MaxBadReads o)
                 (with_Length (effective_length o) o)).
    assert (Hl' : effective_length o' = effective_length o).
    { unfold effective_length at 1. subst o'.
      cbn [Length with_MaxBadReads with_Length].
      destruct (Z.leb_spec (effective_length o) 0); [lia | reflexivity]. }
    assert (Hm' : effective_MaxBadReads o' = effective_MaxBadReads o).
    { unfold effective_MaxBadReads at 1. subst o'.
      cbn [MaxBadReads with_MaxBadReads with_Length].
      destruct (Z.leb_spec (effective_MaxBadReads o) 0); [lia | reflexivity]. }
    rewrite Hl', Hm'.
    apply randString_stdout_irrelevant. reflexivity. }
  split; [apply Hgen|]. apply (Hgen (mkOptions 0 false false false [] 0)).
Qed.

(** ** The share of a repeated character *)

Lemma seq_from (a n : nat) : seq a n = map (fun i => (a + i)%nat) (seq 0 n).
Proof.
  revert a. induction n as [|n IH]; intros a; [reflexivity|].
  cbn [seq map]. rewrite Nat.add_0_r. f_equal.
  rewrite (IH (S a)), <- seq_shift, map_map.
  apply map_ext. intros i. lia.
Qed.

Lemma filter_len_ext_in {A : Type} (f g : A -> bool) (l : list A) :
  (forall a, In a l -> f a = g a) -> len (filter f l) = len (filter g l).
Proof. intros H. now rewrite (filter_ext_in f g l H). Qed.

(** Over [q] full periods, a condition on the residue holds [q] times as
    often as over one period. *)
Lemma count_periodic (g : Z -> bool) (n : nat) :
  (0 < n)%nat ->
  forall q : nat,
    len (filter (fun v => g (v mod Z.of_nat n)) (zrange (q * n)))
    = Z.of_nat q * len (filter g (zrange n)).
Proof.
  intros Hn. induction q as [|q IH]; [reflexivity|].
  replace (S q * n)%nat with (q * n + n)%nat by lia.
  unfold zrange in *. rewrite seq_app, map_app, filter_app, len_app, IH.
  cbn [Nat.add]. rewrite (seq_from (q * n) n), !map_map.
  rewrite <- (filter_map_len (fun i => Z.of_nat (q * n + i))
                (fun v => g (v mod Z.of_nat n))).
  rewrite <- (filter_map_len Z.of_nat g (seq 0 n)).
  rewrite (filter_len_ext_in
             (fun a => g (Z.of_nat (q * n + a) mod Z.of_nat n))
             (fun a => g (Z.of_nat a))).
  - lia.
  - intros i Hi. apply in_seq in Hi. f_equal.
    replace (Z.of_nat (q * n + i)) with (Z.of_nat i + Z.of_nat q * Z.of_nat n)
      by lia.
    rewrite Z.mod_add by lia. apply Z.mod_small. lia.
Qed.

(** Counting the indices that hold a character counts the character. *)
Lemma count_indices (h : byte -> bool) (charset : list byte) :
  len (filter (fun j => h (nth j charset x00)) (seq 0 (List.length charset)))
  = len (filter h charset).
Proof.
  induction charset as [|c rest IH]; [reflexivity|].
  cbn [List.length seq filter]. change (nth 0 (c :: rest) x00) with c.
  rewrite <- seq_shift.
  assert (Hshift :
            len (filter (fun j => h (nth j (c :: rest) x00))
                        (map S (seq 0 (List.length rest))))
            = len (filter h rest)).
  { rewrite <- IH.
    rewrite <- (filter_map_len S (fun j => h (nth j (c :: rest) x00))).
    reflexivity. }
  destruct (h c); unfold len in *; cbn [List.length]; lia.
Qed.

(** X16.  For every alphabet of valid size, repeated characters or not,
    the number of byte values that are accepted and give a character is
    [256 / len(charset)] times the number of times the alphabet lists that
    character: a character listed twice is twice as likely. *)
Theorem char_preimage_weight (charset : list byte) (c : byte) :
  2 <= len charset <= 256 ->
  len (char_preimage charset c)
  = 256 / len charset * occurrences c charset.
Proof.
  intros Hsize. set (n := len charset) in *.
  pose proof (Z.mod_pos_bound 256 n ltac:(lia)) as Hr.
  pose proof (Z.div_mod 256 n ltac:(lia)) as Hd.
  assert (Hq : 0 <= 256 / n) by (apply Z.div_pos; lia).
  unfold char_preimage. fold n.
  rewrite (filter_map_len byte_val
             (fun v => (v <=? maxByte_of n)
                       && Byte.eqb (nth (Z.to_nat (Z.rem v n)) charset x00) c)).
  rewrite all_bytes_vals, maxByte_of_eq by assumption.
  set (q := Z.to_nat (256 / n)).
  set (M := (q * List.length charset)%nat).
  assert (HM : Z.of_nat M = n * (256 / n)).
  { unfold M, q. rewrite Nat2Z.inj_mul, Z2Nat.id by lia.
    fold (len charset). fold n. lia. }
  rewrite (filter_len_ext_in _
             (fun v => (v <? Z.of_nat M)
                       && Byte.eqb (nth (Z.to_nat (v mod n)) charset x00) c)).
  2:{ intros v Hin. unfold zrange in Hin. apply in_map_iff in Hin.
      destruct Hin as (k & <- & _).
      rewrite Z.rem_mod_nonneg by lia. f_equal. rewrite HM.
      destruct (Z.leb_spec (Z.of_nat k) (255 - 256 mod n)),
        (Z.ltb_spec (Z.of_nat k) (n * (256 / n))); lia. }
  rewrite filter_below by lia.
  pose proof (count_periodic
                (fun v => Byte.eqb (nth (Z.to_nat v) charset x00) c)
                (List.length charset) ltac:(unfold n, len in *; lia) q)
    as Hper.
  cbv beta in Hper. fold (len charset) in Hper. fold n in Hper. fold M in Hper.
  rewrite Hper. unfold zrange.
  rewrite <- (filter_map_len Z.of_nat
                (fun v => Byte.eqb (nth (Z.to_nat v) charset x00) c)).
  rewrite (filter_len_ext_in _ (fun j => Byte.eqb c (nth j charset x00))).
  2:{ intros j _. rewrite Nat2Z.id.
      destruct (Byte.eqb (nth j charset x00) c) eqn:E1,
        (Byte.eqb c (nth j charset x00)) eqn:E2; try reflexivity.
      - apply Byte.byte_dec_bl in E1. apply Byte.eqb_false in E2. congruence.
      - apply Byte.byte_dec_bl in E2. apply Byte.eqb_false in E1. congruence. }
  rewrite (count_indices (Byte.eqb c)). unfold occurrences, q.
  rewrite Z2Nat.id by lia. reflexivity.
Qed.

Lemma char_preimage_weight_witness :
  len (char_preimage (bytes_of "aab") "a"%byte) = 170
  /\ len (char_preimage (bytes_of "aab") "b"%byte) = 85.
Proof.
  split.
  - rewrite (char_preimage_weight (bytes_of "aab") "a"%byte);
      [reflexivity | vm_compute; split; discriminate].
  - rewrite (char_preimage_weight (bytes_of "aab") "b"%byte);
      [reflexivity | vm_compute; split; discriminate].
Defined.

(** ** When the budget runs out *)

Lemma sample_loop_budget_error src length maxBadReads charset :
  maxBadReads < max_int ->
  forall fuel pre badReads w s w',
    0 <= badReads <= maxBadReads ->
    sample_loop fuel src length maxBadReads charset (len charset)
                (maxByte_of (len charset)) (sampled length charset pre)
                badReads w
    = Some ((s, Some ErrTooManyBadReads), w') ->
    badReads + reads_between w w' = maxBadReads + 1
    /\ len (sampled length charset
                    (pre ++ bytes_read src (List.length (requests w))
                                       (Z.to_nat (maxBadReads - badReads))))
       < length.
Proof.
  intros Hm. induction fuel as [|fuel IH];
    intros pre badReads w s w' Hb H; cbn [sample_loop] in H.
  - destruct (len _ <? length); discriminate.
  - destruct (Z.ltb_spec (len (sampled length charset pre)) length)
      as [Hlt|]; [|discriminate].
    rewrite rand_Read_eq in H.
    destruct (src (List.length (requests w))) as [data|e]; [|discriminate].
    rewrite wrap_int_small in H by (unfold min_int, max_int in *; lia).
    destruct (Z.gtb_spec (badReads + 1) maxBadReads).
    + inversion H; subst.
      rewrite (reads_between_read w MaxBuffLength (stdout w)),
        reads_between_refl.
      replace (Z.to_nat (maxBadReads - badReads)) with O by lia.
      cbn [bytes_read seq flat_map]. rewrite app_nil_r. lia.
    + rewrite fill_sampled in H. apply IH in H; [|lia].
      destruct H as [Hreads Hshort]. cbn [requests List.length] in Hshort.
      rewrite (reads_between_read w MaxBuffLength (stdout w)).
      replace (Z.to_nat (maxBadReads - badReads))
        with (S (Z.to_nat (maxBadReads - (badReads + 1)))) by lia.
      rewrite bytes_read_S, app_assoc. split; [lia | exact Hshort].
Qed.

(** X17.  With a budget [0 <= maxBadReads], "too many bad reads" comes
    after exactly [maxBadReads + 1] reads and tells that the first
    [maxBadReads] buffers did not hold enough accepted bytes for the
    requested length; what the last read brought is not looked at. *)
Theorem randString_budget_error fuel src length maxBadReads charset w s w' :
  0 <= maxBadReads < max_int ->
  randString fuel src length maxBadReads charset w
  = Some ((s, Some ErrTooManyBadReads), w') ->
  reads_between w w' = maxBadReads + 1
  /\ len (sampled length charset
                  (bytes_read src (List.length (requests w))
                              (Z.to_nat maxBadReads)))
     < length.
Proof.
  intros Hm H. unfold randString in H.
  destruct (length =? 0); [discriminate|].
  destruct ((len charset <? 2) || (len charset >? 256)); [discriminate|].
  rewrite <- (sampled_nil length charset) in H at 1.
  apply sample_loop_budget_error in H; [|lia|lia].
  cbn [app] in H. rewrite Z.sub_0_r in H. destruct H as [Hreads Hshort].
  split; [lia | exact Hshort].
Qed.

Lemma randString_budget_error_witness :
  reads_between world0 (mkWorld [MaxBuffLength; MaxBuffLength] []) = 1 + 1
  /\ len (sampled 1 (bytes_of "abc") (bytes_read late_source 0 1)) < 1.
Proof.
  apply (randString_budget_error 2 late_source 1 1 (bytes_of "abc") world0 []).
  - unfold max_int. lia.
  - vm_compute. reflexivity.
Defined.
